(** * colorednoise: Gaussian (1/f)**beta noise, after Timmer and Koenig (1995)

    A shallow embedding of [powerlaw_psd_gaussian] (colorednoise.py) and the
    properties of its stages: shape handling, the frequency-scale vector with
    its low-frequency cutoff, the Hermitian constraints on the sampled
    spectrum, the inverse real transform and the variance normaliser.

    Conventions of the embedding.
    - numpy's float64 values are read as real numbers ([R]), without
      rounding; where a property speaks of a value being finite or positive
      as a float64, the range of float64 ([F64]) is applied to the real.
    - An array is its rows along the last (time or frequency) axis, with the
      leading axes flattened in row-major order, together with its shape.
    - Python exceptions are results carrying the name of the exception class.
    - [numpy.random.normal] reads a stream of variates that is threaded
      through the function as explicit state.
    - [fftfreq], [irfft] and [normal] are numpy's; they are written out here
      from their documented behaviour. *)

From Stdlib Require Import Reals Lra Lia ZArith String List.
From stdpp Require Import base list.
Import ListNotations.

Local Open Scope R_scope.

(** ** Python values and exceptions *)

Module Py.

(** An exception is identified by the name of its class. *)
Definition exn := string.

Inductive result (A : Type) : Type :=
| Ok (a : A)
| Raise (e : exn).
Arguments Ok {A} a.
Arguments Raise {A} e.

Definition bind {A B} (r : result A) (k : A -> result B) : result B :=
  match r with
  | Ok a => k a
  | Raise e => Raise e
  end.

(** [try: body except cls: handler] *)
Definition try_except {A} (body : result A) (cls : exn) (handler : result A)
  : result A :=
  match body with
  | Ok a => Ok a
  | Raise e => if String.eqb e cls then handler else Raise e
  end.

(** One entry of a shape: a Python [int], or any other object (a float,
    [None], a string, a nested list, ...).  A [bool], and an integer beyond
    the largest extent that the platform allows an array, are not
    represented. *)
Inductive dim : Type :=
| DInt (z : Z)
| DOther.

(** The [size] argument: an object that cannot be iterated (an [int] or
    another scalar), or an iterable with its items in order. *)
Inductive size_arg : Type :=
| Scalar (d : dim)
| Iterable (items : list dim).

(** [list(size)] *)
Definition list_of (size : size_arg) : result (list dim) :=
  match size with
  | Scalar _ => Raise "TypeError"%string
  | Iterable items => Ok items
  end.

(** The object [size] itself as an item of a list: [[size]]. *)
Definition as_item (size : size_arg) : dim :=
  match size with
  | Scalar d => d
  | Iterable _ => DOther
  end.

(** The list that [size] is after
    [try: size = list(size) except TypeError: size = [size]]. *)
Definition resolved (size : size_arg) : list dim :=
  match size with
  | Scalar d => [d]
  | Iterable items => items
  end.

(** A list of extents as a list of Python integers. *)
Definition int_shape (dims : list nat) : list dim :=
  (fun d => DInt (Z.of_nat d)) <$> dims.

(** [l[-1]] *)
Definition last_item (l : list dim) : result dim :=
  match last l with
  | Some d => Ok d
  | None => Raise "IndexError"%string
  end.

End Py.

Notation "'let*' x ':=' r 'in' k" := (Py.bind r (fun x => k))
  (at level 10, x pattern, r at level 100, k at level 200).

(** ** numpy primitives *)

Module Np.
Import Py.

(** Sum of the entries of an array. *)
Definition sum (l : list R) : R := fold_right Rplus 0 l.

(** Integer grid of [fftfreq(n)] for [n > 0]:
    [0, 1, ..., (n-1)//2, -(n//2), ..., -1]. *)
Definition fftfreq_grid (n : nat) : list Z :=
  (Z.of_nat <$> seq 0 ((n - 1) / 2 + 1))
    ++ ((fun j => (Z.of_nat j - Z.of_nat (n / 2))%Z) <$> seq 0 (n / 2)).

(** [fftfreq(n)] with the default spacing [d = 1.0]:
    [val = 1.0 / (n * d)], an integer array of [n] entries, times [val]. *)
Definition fftfreq (n : dim) : result (list R) :=
  match n with
  | DOther => Raise "ValueError"%string
  | DInt z =>
      if (z =? 0)%Z then Raise "ZeroDivisionError"%string
      else if (z <? 0)%Z then Raise "ValueError"%string
      else Ok ((fun i => IZR i * (1 / (IZR z * 1)))
                 <$> fftfreq_grid (Z.to_nat z))
  end.

End Np.

(** ** The range of float64 *)

Module F64.

(** A float64 result: zero, infinity, or a finite number other than zero,
    which is kept as the real that it stands for. *)
Inductive value : Type :=
| Zero
| Finite (r : R)
| Inf.

(** The reals from here on round to infinity:
    [(2 - 2**-53) * 2**1023], half a unit in the last place above the
    largest float64. *)
Definition overflow_threshold : R := (2 - / 2 ^ 53) * 2 ^ 1023.

(** The positive reals up to here round to zero: [2**-1075], half the
    smallest positive float64. *)
Definition underflow_threshold : R := / 2 ^ 1075.

(** The float64 that a positive real rounds to (to nearest, ties to even);
    the rounding of a result that stays inside the range is left out. *)
Definition round (v : R) : value :=
  if Rle_dec overflow_threshold v then Inf
  else if Rle_dec v underflow_threshold then Zero
  else Finite v.

End F64.

(** ** Arrays and the stream of normal variates *)

Module Arr.
Import Py.

(** An array with at least one axis: its shape, and its rows along the
    last axis (leading axes flattened, row-major). *)
Record ndarray (A : Type) : Type := mk { shape : list nat; rows : list (list A) }.
Arguments mk {A} shape rows.
Arguments shape {A} n.
Arguments rows {A} n.

(** Number of rows that a shape asks for: the product of its leading
    extents. *)
Definition row_count (shp : list nat) : nat := foldr Nat.mul 1%nat (removelast shp).

(** Length of the last axis. *)
Definition row_length (shp : list nat) : nat := List.last shp 1%nat.

(** An array is well formed when its rows agree with its shape. *)
Definition well_formed {A} (a : ndarray A) : Prop :=
  length (rows a) = row_count (shape a)
  /\ Forall (fun row => length row = row_length (shape a)) (rows a).

(** The upcoming standard-normal variates of the generator. *)
Definition stream := nat -> R.

Definition is_other (d : dim) : bool :=
  match d with DOther => true | DInt _ => false end.

Definition is_negative (d : dim) : bool :=
  match d with DInt z => (z <? 0)%Z | DOther => false end.

Definition extent (d : dim) : nat :=
  match d with DInt z => Z.to_nat z | DOther => 0%nat end.

(** A dimension that no array can have: a negative integer, or an object
    that is not an integer. *)
Definition rejected (d : dim) : Prop :=
  match d with DInt z => (z < 0)%Z | DOther => True end.

(** Conversion of a [size] list to the shape of a new array: an item that
    is not an integer is a [TypeError], a negative one a [ValueError]. *)
Definition new_shape (size : list dim) : result (list nat) :=
  if existsb is_other size then Raise "TypeError"%string
  else if existsb is_negative size then Raise "ValueError"%string
  else Ok (extent <$> size).

(** An array of shape [shp] filled, in row-major order, with the next
    variates of the stream. *)
Definition fill (shp : list nat) (g : stream) : ndarray R :=
  let m := row_length shp in
  mk shp ((fun r => (fun k => g (r * m + k)%nat) <$> seq 0 m)
            <$> seq 0 (row_count shp)).

(** The stream after an array of shape [shp] was drawn from it. *)
Definition advance (shp : list nat) (g : stream) : stream :=
  fun i => g (i + row_count shp * row_length shp)%nat.

(** [normal(size=size)] *)
Definition normal (size : list dim) (g : stream)
  : result (ndarray R * stream) :=
  let* shp := new_shape size in
  Ok (fill shp g, advance shp g).

(** [a[..., i] = v] for an index [i] counted from the front. *)
Definition set_column {A} (i : nat) (v : A) (a : ndarray A) : ndarray A :=
  mk (shape a) ((fun row => <[i := v]> row) <$> rows a).

(** [a[..., -1] = v] *)
Definition set_last_column {A} (v : A) (a : ndarray A) : ndarray A :=
  mk (shape a) ((fun row => <[(length row - 1)%nat := v]> row) <$> rows a).

End Arr.

(** ** The inverse real transform *)

Module Fft.
Import Py Arr.

(** A complex number as its real and imaginary parts. *)
Definition complex : Type := R * R.

Definition angle (n k t : nat) : R := 2 * PI * INR k * INR t / INR n.

(** Contribution of bin [k] of a one-sided spectrum to sample [t] of a
    signal of [n] samples.  The zero-frequency bin, and for even [n] the
    bin at [n/2], enter once and only with their real part; each other
    bin stands for itself and its conjugate at the mirrored frequency. *)
Definition hermitian_term (n t k : nat) (z : complex) : R :=
  if (k =? 0)%nat then z.1
  else if (2 * k =? n)%nat then z.1 * (-1) ^ t
  else 2 * (z.1 * cos (angle n k t) - z.2 * sin (angle n k t)).

(** [irfft(a, n)] of one row: bins [0 .. n//2] of [a] are used, missing
    ones read as zero, and the sum is divided by [n]. *)
Definition irfft_row (n : nat) (a : list complex) : list R :=
  (fun t =>
     Np.sum ((fun k => hermitian_term n t k (nth k a (0, 0)))
               <$> seq 0 (n / 2 + 1)) / INR n)
    <$> seq 0 n.

(** [irfft(a, n=n, axis=-1)] *)
Definition irfft (a : ndarray complex) (n : nat) : ndarray R :=
  mk (removelast (shape a) ++ [n]) (irfft_row n <$> rows a).

(** Coefficients of the real and of the imaginary part of bin [k] in sample
    [t] of the inverse transform. *)
Definition coef_re (n t k : nat) : R :=
  if (k =? 0)%nat then 1
  else if (2 * k =? n)%nat then (-1) ^ t
  else 2 * cos (angle n k t).

Definition coef_im (n t k : nat) : R :=
  if (k =? 0)%nat then 0
  else if (2 * k =? n)%nat then 0
  else - 2 * sin (angle n k t).

End Fft.

(** ** powerlaw_psd_gaussian *)

Module Noise.
Import Py Arr Fft.

(** [s_scale = abs(f[:samples//2 + 1]); s_scale[0] = 1/samples] *)
Definition s_scale_bins (f : list R) (samples : nat) : list R :=
  <[0%nat := 1 / INR samples]> (Rabs <$> take (samples / 2 + 1) f).

(** The bins of a signal of [samples] samples, as [s_scale] holds them
    before the cutoff, from the successful result of [fftfreq(samples)]. *)
Definition bins (samples : nat) : list R :=
  s_scale_bins
    ((fun i => IZR i * (1 / (INR samples * 1))) <$> Np.fftfreq_grid samples)
    samples.

(** [sum(s_scale < fmin)] *)
Definition count_below (fmin : R) (s : list R) : nat :=
  foldr (fun x c => if Rlt_dec x fmin then S c else c) 0%nat s.

(** The low-frequency cutoff:
    [if fmin: ix = sum(s_scale < fmin);
              if ix < len(s_scale): s_scale[:ix] = s_scale[ix]] *)
Definition cutoff (fmin : R) (s : list R) : list R :=
  if Req_dec_T fmin 0 then s
  else
    let ix := count_below fmin s in
    if (ix <? length s)%nat then replicate ix (nth ix s 0) ++ drop ix s
    else s.

(** [s_scale**(-exponent/2.)] *)
Definition apply_exponent (exponent : R) (s : list R) : list R :=
  (fun x => Rpower x (- exponent / 2)) <$> s.

(** The scale vector that multiplies the spectrum. *)
Definition scale_vector (exponent fmin : R) (samples : nat) : list R :=
  apply_exponent exponent (cutoff fmin (bins samples)).

(** The imaginary draws after the two assignments
    [if not (samples % 2): si[...,-1] = 0] and [si[...,0] = 0]. *)
Definition constrain_imag (samples : nat) (si : ndarray R) : ndarray R :=
  set_column 0 0
    (if (samples mod 2 =? 0)%nat then set_last_column 0 si else si).

(** [(sr + 1J * si) * s_scale] on one row. *)
Definition scaled_row (s_scale : list R) (sr si : list R) : list complex :=
  zip_with (fun z c => (z.1 * c, z.2 * c)) (zip sr si) s_scale.

(** [(1 + (samples % 2)) / 2.] *)
Definition nyquist_factor (samples : nat) : R :=
  (1 + INR (samples mod 2)) / 2.

(** [weights = s_scale; weights[...,0] = 0;
     weights[...,-1] *= (1 + (samples % 2)) / 2.; weights = weights**2]
    The first line makes [weights] another name of the array [s_scale], and
    the two assignments change that array in place; the product
    [s * s_scale] was formed before, from the unchanged array, so only the
    weights see the change. *)
Definition weights (s_scale : list R) (samples : nat) : list R :=
  (fun w => w ^ 2)
    <$> alter (fun w => w * nyquist_factor samples) (length s_scale - 1)%nat
          (<[0%nat := 0]> s_scale).

(** [2 * sqrt(weights.sum()) / samples] *)
Definition std (s_scale : list R) (samples : nat) : R :=
  2 * sqrt (Np.sum (weights s_scale samples)) / INR samples.

(** The weights and the standard deviation that the code would compute
    if the line [weights[...,-1] *= (1 + (samples % 2)) / 2.] were not
    there. *)
Definition weights_without_nyquist_step (s_scale : list R) : list R :=
  (fun w => w ^ 2) <$> <[0%nat := 0]> s_scale.

Definition std_without_nyquist_step (s_scale : list R) (samples : nat) : R :=
  2 * sqrt (Np.sum (weights_without_nyquist_step s_scale)) / INR samples.

(** The weights and the standard deviation in the order of the written
    description: square every entry of the scale vector, then zero the
    first weight, then multiply the last weight by
    [(1 + samples % 2) / 2]. *)
Definition weights_as_described (s_scale : list R) (samples : nat) : list R :=
  alter (fun w => w * nyquist_factor samples) (length s_scale - 1)%nat
    (<[0%nat := 0]> ((fun w => w ^ 2) <$> s_scale)).

Definition std_as_described (s_scale : list R) (samples : nat) : R :=
  2 * sqrt (Np.sum (weights_as_described s_scale samples)) / INR samples.

(** The factor that the weight of bin [k] carries inside the square:
    nothing for bin 0, a half for the bin at [samples/2] of an even
    length, one otherwise. *)
Definition bin_factor (samples k : nat) : R :=
  if (k =? 0)%nat then 0
  else if (2 * k =? samples)%nat then 1 / 2
  else 1.

(** One realisation: a row of real draws and a row of (constrained)
    imaginary draws to a row of output samples. *)
Definition realization (s_scale : list R) (samples : nat) (sr si : list R)
  : list R :=
  (fun v => v / std s_scale samples)
    <$> irfft_row samples (scaled_row s_scale sr si).

(** The shape of the two arrays of draws, [size] after
    [size[-1] = len(s_scale)]. *)
Definition spectrum_shape (batch : list nat) (samples : nat) : list nat :=
  batch ++ [(samples / 2 + 1)%nat].

(** The state of the computation once the spectrum has been sampled and
    constrained (after [si[...,0] = 0]). *)
Record spectrum : Type := Spectrum {
  sp_samples : nat;        (* samples *)
  sp_scale : list R;       (* s_scale, after the exponent was applied *)
  sp_real : ndarray R;     (* sr *)
  sp_imag : ndarray R;     (* si *)
  sp_stream : stream       (* the generator, after both draws *)
}.

(** From the arguments to the sampled spectrum. *)
Definition sample_spectrum
  (exponent : R) (size : size_arg) (fmin : R) (g : stream)
  : result spectrum :=
  let* size := try_except (list_of size) "TypeError"%string (Ok [as_item size]) in
  let* samples_obj := last_item size in
  let* f := Np.fftfreq samples_obj in
  let samples := extent samples_obj in
  let s_scale := s_scale_bins f samples in
  let size := <[(length size - 1)%nat := DInt (Z.of_nat (length s_scale))]> size in
  let s_scale := apply_exponent exponent (cutoff fmin s_scale) in
  let* (sr, g) := normal size g in
  let* (si, g) := normal size g in
  Ok (Spectrum samples s_scale sr (constrain_imag samples si) g).

(** From the sampled spectrum to the normalised time series. *)
Definition synthesize (st : spectrum) : ndarray R * stream :=
  let samples := sp_samples st in
  let s_scale := sp_scale st in
  let s := zip_with (scaled_row s_scale) (rows (sp_real st)) (rows (sp_imag st)) in
  let y := irfft (mk (shape (sp_real st)) s) samples in
  let sigma := std s_scale samples in
  (mk (shape y) ((fun row : list R => (fun v => v / sigma) <$> row) <$> rows y),
   sp_stream st).

Definition powerlaw_psd_gaussian
  (exponent : R) (size : size_arg) (fmin : R) (g : stream)
  : result (ndarray R * stream) :=
  let* st := sample_spectrum exponent size fmin g in
  Ok (synthesize st).

(** The imaginary draws of realisation [r] after the two assignments. *)
Definition imag_row (batch : list nat) (samples r : nat) (g : stream) : list R :=
  let m := (samples / 2 + 1)%nat in
  let raw := (fun k => advance (spectrum_shape batch samples) g (r * m + k)%nat) <$> seq 0 m in
  <[0%nat := 0]> (if (samples mod 2 =? 0)%nat then <[(length raw - 1)%nat := 0]> raw else raw).

(** The real draws of realisation [r]. *)
Definition real_row (samples r : nat) (g : stream) : list R :=
  let m := (samples / 2 + 1)%nat in
  (fun k => g (r * m + k)%nat) <$> seq 0 m.

(** Row [r] of the array that a call returns when it reads the stream
    [g]; no row when the call fails. *)
Definition output_row
  (exponent : R) (size : size_arg) (fmin : R) (r : nat) (g : stream) : list R :=
  match powerlaw_psd_gaussian exponent size fmin g with
  | Ok (y, _) => nth r (rows y) []
  | Raise _ => []
  end.

End Noise.

(** ** Sample statistics and expectations over the draws *)

Module Stat.
Import Arr Fft.

(** numpy's [mean] of a row. *)
Definition mean (y : list R) : R := Np.sum y / INR (length y).

(** numpy's [var] of a row: [mean(abs(y - y.mean())**2)]. *)
Definition var (y : list R) : R := mean ((fun v => (v - mean y) ^ 2) <$> y).

(** What the statement about the variance uses of the expectation over
    independent standard-normal variates: it is a linear functional on the
    random variables (the real functions of the stream), it does not tell
    apart random variables that agree on every stream, and the first [N]
    variates have second moments [E(g_i * g_j) = 1] for [i = j] and [0]
    otherwise. *)
Record expectation (N : nat) (E : (stream -> R) -> R) : Prop := {
  E_ext : forall f h, (forall g, f g = h g) -> E f = E h;
  E_plus : forall f h, E (fun g => f g + h g) = E f + E h;
  E_scal : forall c f, E (fun g => c * f g) = c * E f;
  E_moment : forall i j, (i < N)%nat -> (j < N)%nat ->
             E (fun g => g i * g j) = if (i =? j)%nat then 1 else 0
}.

(** A linear form in the variates: a list of coefficients, each with the
    index of its variate. *)
Definition lin (l : list (R * nat)) (g : stream) : R :=
  Np.sum ((fun ci => ci.1 * g ci.2) <$> l).

(** Sample [t] of realisation [r], before the division by [samples] and by
    the standard deviation, as a linear form in the variates. *)
Definition row_form (s : list R) (batch : list nat) (n r t : nat) : list (R * nat) :=
  let m := (n / 2 + 1)%nat in
  let c := foldr Nat.mul 1%nat batch in
  ((fun k => (nth k s 0 * coef_re n t k, (r * m + k)%nat)) <$> seq 0 m)
    ++ ((fun k => (nth k s 0 * coef_im n t k, (r * m + k + c * m)%nat)) <$> seq 0 m).

(** The stream whose variate [i] is 1 and whose other variates are 0. *)
Definition unit_stream (i : nat) : stream :=
  fun j => if (j =? i)%nat then 1 else 0.

(** A functional with these properties: the sum of the values of a random
    variable on the first [N] unit streams. *)
Definition unit_sum (N : nat) (f : stream -> R) : R :=
  Np.sum ((fun i => f (unit_stream i)) <$> seq 0 N).

End Stat.

(** * Properties *)

Import Py Arr Fft Noise Stat.

(** ** The grid of [fftfreq] on small lengths *)

Example fftfreq_grid_4 : Np.fftfreq_grid 4 = [0; 1; -2; -1]%Z.
Proof. reflexivity. Qed.

Example fftfreq_grid_5 : Np.fftfreq_grid 5 = [0; 1; 2; -2; -1]%Z.
Proof. reflexivity. Qed.

Example fftfreq_grid_1 : Np.fftfreq_grid 1 = [0]%Z.
Proof. reflexivity. Qed.

Example empty_size_raises :
  powerlaw_psd_gaussian 1 (Iterable []) 0 (fun _ => 0) = Raise "IndexError"%string.
Proof. reflexivity. Qed.

Example float_size_raises :
  powerlaw_psd_gaussian 1 (Scalar DOther) 0 (fun _ => 0) = Raise "ValueError"%string.
Proof. reflexivity. Qed.

(** ** Integer halves *)

Lemma parity_cases (n : nat) :
  (1 <= n)%nat ->
  (exists m, (1 <= m)%nat /\ n = (2 * m)%nat /\ (n / 2 = m)%nat
             /\ ((n - 1) / 2 + 1 = m)%nat /\ (n mod 2 = 0)%nat)
  \/ (exists m, n = (2 * m + 1)%nat /\ (n / 2 = m)%nat
                /\ ((n - 1) / 2 + 1 = m + 1)%nat /\ (n mod 2 = 1)%nat).
Proof.
  intros Hn.
  pose proof (Nat.div_mod_eq n 2) as Hd.
  pose proof (Nat.mod_upper_bound n 2 ltac:(lia)) as Hm.
  pose proof (Nat.div_mod_eq (n - 1) 2) as Hd'.
  pose proof (Nat.mod_upper_bound (n - 1) 2 ltac:(lia)) as Hm'.
  revert Hd Hm Hd' Hm'.
  generalize (n / 2)%nat (n mod 2)%nat ((n - 1) / 2)%nat ((n - 1) mod 2)%nat.
  intros q r q' r' Hd Hm Hd' Hm'.
  destruct (Nat.eq_dec r 0%nat) as [-> | Hr].
  - left. exists q. lia.
  - right. exists q. lia.
Qed.

Lemma fftfreq_grid_lookup (n k : nat) :
  (1 <= n)%nat -> (k <= n / 2)%nat ->
  Np.fftfreq_grid n !! k
  = Some (if (2 * k =? n)%nat then (- Z.of_nat k)%Z else Z.of_nat k).
Proof.
  intros Hn Hk. unfold Np.fftfreq_grid.
  destruct (parity_cases n Hn)
    as [(m & Hm & En & E2 & E1 & _) | (m & En & E2 & E1 & _)];
    rewrite E2 in *; rewrite E1;
    destruct (Nat.eqb_spec (2 * k) n) as [He | Hne]; try lia.
  - rewrite lookup_app_r; rewrite length_fmap, length_seq; [| lia].
    rewrite list_lookup_fmap, lookup_seq_lt by lia. simpl. f_equal. lia.
  - rewrite lookup_app_l by (rewrite length_fmap, length_seq; lia).
    rewrite list_lookup_fmap, lookup_seq_lt by lia. reflexivity.
  - rewrite lookup_app_l by (rewrite length_fmap, length_seq; lia).
    rewrite list_lookup_fmap, lookup_seq_lt by lia. reflexivity.
Qed.

Lemma fftfreq_grid_length (n : nat) : (1 <= n)%nat -> length (Np.fftfreq_grid n) = n.
Proof.
  intros Hn. unfold Np.fftfreq_grid.
  rewrite length_app, !length_fmap, !length_seq.
  destruct (parity_cases n Hn)
    as [(m & Hm & En & E2 & E1 & _) | (m & En & E2 & E1 & _)];
    rewrite E2; rewrite E1; lia.
Qed.

Lemma fftfreq_positive (n : nat) :
  (1 <= n)%nat ->
  Np.fftfreq (DInt (Z.of_nat n))
  = Ok ((fun i => IZR i * (1 / (INR n * 1))) <$> Np.fftfreq_grid n).
Proof.
  intros Hn. unfold Np.fftfreq.
  destruct (Z.eqb_spec (Z.of_nat n) 0) as [E | _]; [lia |].
  destruct (Z.ltb_spec (Z.of_nat n) 0) as [E | _]; [lia |].
  rewrite Nat2Z.id, <- INR_IZR_INZ. reflexivity.
Qed.

Lemma bins_length (n : nat) : (1 <= n)%nat -> length (bins n) = (n / 2 + 1)%nat.
Proof.
  intros Hn. unfold bins, s_scale_bins.
  rewrite length_insert, length_fmap, length_take, length_fmap, fftfreq_grid_length by lia.
  assert (n / 2 < n)%nat by (apply Nat.div_lt; lia). lia.
Qed.

Lemma bins_lookup (n k : nat) :
  (1 <= n)%nat -> (k <= n / 2)%nat ->
  bins n !! k = Some (if (k =? 0)%nat then 1 / INR n else INR k / INR n).
Proof.
  intros Hn Hk. unfold bins, s_scale_bins.
  assert (Hpos : 0 < INR n) by (apply lt_0_INR; lia).
  destruct (Nat.eqb_spec k 0) as [-> | Hk0].
  - apply list_lookup_insert_eq.
    rewrite length_fmap, length_take, length_fmap, fftfreq_grid_length by lia. lia.
  - rewrite list_lookup_insert_ne by lia.
    rewrite list_lookup_fmap, lookup_take_lt by lia.
    rewrite list_lookup_fmap, fftfreq_grid_lookup by lia.
    cbn [fmap option_fmap option_map]. f_equal.
    assert (Hk' : 0 <= INR k) by apply pos_INR.
    replace (1 / (INR n * 1)) with (/ INR n) by (field; lra).
    assert (Hinv : 0 < / INR n) by (apply Rinv_0_lt_compat; lra).
    destruct (2 * k =? n)%nat.
    + rewrite opp_IZR, <- INR_IZR_INZ.
      replace (- INR k * / INR n) with (- (INR k * / INR n)) by ring.
      rewrite Rabs_Ropp, Rabs_pos_eq; [reflexivity | nra].
    + rewrite <- INR_IZR_INZ, Rabs_pos_eq; [reflexivity | nra].
Qed.

Lemma int_shape_app (a b : list nat) :
  int_shape (a ++ b) = int_shape a ++ int_shape b.
Proof. apply fmap_app. Qed.

Lemma int_shape_no_other (dims : list nat) :
  existsb is_other (int_shape dims) = false.
Proof. induction dims as [| d dims IH]; [reflexivity | exact IH]. Qed.

Lemma int_shape_no_negative (dims : list nat) :
  existsb is_negative (int_shape dims) = false.
Proof.
  induction dims as [| d dims IH]; [reflexivity |].
  cbn [int_shape fmap list_fmap existsb is_negative].
  destruct (Z.ltb_spec (Z.of_nat d) 0); [lia | exact IH].
Qed.

Lemma extent_int_shape (dims : list nat) : extent <$> int_shape dims = dims.
Proof.
  induction dims as [| d dims IH]; [reflexivity |].
  cbn [int_shape fmap list_fmap extent]. rewrite Nat2Z.id. f_equal. exact IH.
Qed.

Lemma new_shape_int_shape (dims : list nat) : new_shape (int_shape dims) = Ok dims.
Proof.
  unfold new_shape.
  rewrite int_shape_no_other, int_shape_no_negative, extent_int_shape.
  reflexivity.
Qed.

Lemma normal_int_shape (dims : list nat) (g : stream) :
  normal (int_shape dims) g = Ok (fill dims g, advance dims g).
Proof. unfold normal. rewrite new_shape_int_shape. reflexivity. Qed.

Lemma try_list_of (size : size_arg) :
  try_except (list_of size) "TypeError"%string (Ok [as_item size]) = Ok (resolved size).
Proof. destruct size; reflexivity. Qed.

Lemma last_item_snoc (l : list dim) (d : dim) : last_item (l ++ [d]) = Ok d.
Proof. unfold last_item. rewrite last_snoc. reflexivity. Qed.

Lemma sample_spectrum_valid (exponent fmin : R) (size : size_arg) (g : stream)
    (batch : list nat) (samples : nat) :
  resolved size = int_shape (batch ++ [samples]) -> (1 <= samples)%nat ->
  let shp := spectrum_shape batch samples in
  sample_spectrum exponent size fmin g
  = Ok (Spectrum samples (scale_vector exponent fmin samples)
          (fill shp g) (constrain_imag samples (fill shp (advance shp g)))
          (advance shp (advance shp g))).
Proof.
  intros Hsize Hn shp. unfold sample_spectrum.
  rewrite try_list_of, Hsize. cbn [bind].
  unfold int_shape. rewrite fmap_app. cbn [fmap list_fmap].
  rewrite last_item_snoc. cbn [bind].
  rewrite fftfreq_positive by exact Hn. cbn [bind extent].
  rewrite Nat2Z.id. fold (bins samples).
  rewrite bins_length by exact Hn.
  change ((fun d => DInt (Z.of_nat d)) <$> batch) with (int_shape batch).
  rewrite length_app. cbn [length].
  replace (length (int_shape batch) + 1 - 1)%nat
    with (length (int_shape batch) + 0)%nat by lia.
  rewrite insert_app_r. cbn [insert list_insert].
  change [DInt (Z.of_nat (samples / 2 + 1))]
    with (int_shape [(samples / 2 + 1)%nat]).
  rewrite <- int_shape_app.
  fold (spectrum_shape batch samples). fold shp.
  rewrite normal_int_shape. cbn [bind].
  rewrite normal_int_shape. reflexivity.
Qed.

(** ** The scale vector *)

Lemma bins_positive (n : nat) : (1 <= n)%nat -> Forall (fun x => 0 < x) (bins n).
Proof.
  intros Hn. apply Forall_lookup. intros k x Hx.
  assert (Hk : (k < length (bins n))%nat) by (eapply lookup_lt_Some; exact Hx).
  rewrite bins_length in Hk by exact Hn.
  rewrite bins_lookup in Hx by lia. injection Hx as <-.
  assert (Hpos : 0 < INR n) by (apply lt_0_INR; lia).
  destruct (Nat.eqb_spec k 0) as [-> | Hk0].
  - apply Rdiv_lt_0_compat; lra.
  - apply Rdiv_lt_0_compat; [apply lt_0_INR; lia | lra].
Qed.

Lemma bins_lower_bound (n : nat) :
  (1 <= n)%nat -> Forall (fun x => 1 / INR n <= x) (bins n).
Proof.
  intros Hn. apply Forall_lookup. intros k x Hx.
  assert (Hk : (k < length (bins n))%nat) by (eapply lookup_lt_Some; exact Hx).
  rewrite bins_length in Hk by exact Hn.
  rewrite bins_lookup in Hx by lia. injection Hx as <-.
  assert (Hpos : 0 < INR n) by (apply lt_0_INR; lia).
  destruct (Nat.eqb_spec k 0) as [-> | Hk0]; [lra |].
  unfold Rdiv. apply Rmult_le_compat_r.
  - left. apply Rinv_0_lt_compat. exact Hpos.
  - change 1 with (INR 1). apply le_INR. lia.
Qed.

Lemma cutoff_zero (s : list R) : cutoff 0 s = s.
Proof. unfold cutoff. destruct (Req_dec_T 0 0) as [_ | H]; [reflexivity | lra]. Qed.

Lemma count_below_le_length (fmin : R) (s : list R) :
  (count_below fmin s <= length s)%nat.
Proof.
  induction s as [| x s IH]; [reflexivity |].
  cbn [count_below foldr length]. fold (count_below fmin s).
  destruct (Rlt_dec x fmin); lia.
Qed.

Lemma count_below_none (fmin : R) (s : list R) :
  Forall (fun x => fmin <= x) s -> count_below fmin s = 0%nat.
Proof.
  induction 1 as [| x s Hx _ IH]; [reflexivity |].
  cbn [count_below foldr]. fold (count_below fmin s).
  destruct (Rlt_dec x fmin); [lra | exact IH].
Qed.

Lemma cutoff_nonzero (fmin : R) (s : list R) :
  fmin <> 0 ->
  cutoff fmin s
  = let ix := count_below fmin s in
    if (ix <? length s)%nat then replicate ix (nth ix s 0) ++ drop ix s else s.
Proof.
  intros H. unfold cutoff. destruct (Req_dec_T fmin 0) as [E | _]; [contradiction | reflexivity].
Qed.

Lemma apply_exponent_lookup (exponent : R) (s : list R) (k : nat) (x : R) :
  s !! k = Some x ->
  apply_exponent exponent s !! k = Some (Rpower x (- exponent / 2)).
Proof. intros H. unfold apply_exponent. rewrite list_lookup_fmap, H. reflexivity. Qed.

Lemma apply_exponent_positive (exponent : R) (s : list R) :
  Forall (fun x => 0 < x) (apply_exponent exponent s).
Proof.
  unfold apply_exponent. apply Forall_fmap, Forall_true.
  intros x. cbn. unfold Rpower. apply exp_pos.
Qed.

Lemma bins_monotone (n j k : nat) (x y : R) :
  (1 <= n)%nat -> (j <= k)%nat ->
  bins n !! j = Some x -> bins n !! k = Some y -> x <= y.
Proof.
  intros Hn Hjk Hx Hy.
  assert (Hk : (k < length (bins n))%nat) by (eapply lookup_lt_Some; exact Hy).
  rewrite bins_length in Hk by exact Hn.
  rewrite bins_lookup in Hx, Hy by lia.
  injection Hx as <-. injection Hy as <-.
  assert (Hpos : 0 < / INR n) by (apply Rinv_0_lt_compat, lt_0_INR; lia).
  assert (Hjk' : INR j <= INR k) by (apply le_INR; exact Hjk).
  unfold Rdiv.
  destruct (Nat.eqb_spec j 0) as [-> | Hj], (Nat.eqb_spec k 0) as [-> | Hk0];
    try lia; try lra.
  - assert (1 <= INR k) by (change 1 with (INR 1); apply le_INR; lia). nra.
  - nra.
Qed.

(** In a list in ascending order, the entries below [fmin] are the first
    [count_below fmin] ones. *)
Lemma count_below_prefix (fmin : R) (s : list R) :
  (forall j k x y, (j <= k)%nat -> s !! j = Some x -> s !! k = Some y -> x <= y) ->
  forall k x, s !! k = Some x -> (x < fmin <-> (k < count_below fmin s)%nat).
Proof.
  induction s as [| a s IH]; intros Hs k x Hx; [discriminate |].
  assert (Hs' : forall j k x y, (j <= k)%nat ->
                  s !! j = Some x -> s !! k = Some y -> x <= y).
  { intros j k' x' y' Hjk Hj Hk'. apply (Hs (S j) (S k') x' y'); [lia | exact Hj | exact Hk']. }
  assert (Ha : forall k' y, s !! k' = Some y -> a <= y).
  { intros k' y Hy. apply (Hs 0%nat (S k') a y); [lia | reflexivity | exact Hy]. }
  cbn [count_below foldr]. fold (count_below fmin s).
  destruct (Rlt_dec a fmin) as [Hlt | Hge].
  - destruct k as [| k]; cbn in Hx.
    + injection Hx as <-. split; [lia | intros _; exact Hlt].
    + rewrite (IH Hs' k x Hx). lia.
  - assert (H0 : count_below fmin s = 0%nat).
    { apply count_below_none. apply Forall_lookup. intros k' y Hy.
      pose proof (Ha k' y Hy). lra. }
    rewrite H0. split; [| lia].
    intros Hlt. exfalso. destruct k as [| k]; cbn in Hx.
    + injection Hx as <-. contradiction.
    + pose proof (Ha k x Hx). lra.
Qed.

Lemma Rpower_antitone (x y p : R) :
  0 < x -> x <= y -> p <= 0 -> Rpower y p <= Rpower x p.
Proof.
  intros Hx Hxy Hp. unfold Rpower.
  assert (Hln : ln x <= ln y).
  { destruct Hxy as [Hlt | ->]; [left; apply ln_increasing; assumption | right; reflexivity]. }
  assert (H : p * ln y <= p * ln x) by nra.
  destruct H as [Hlt | ->]; [left; apply exp_increasing; exact Hlt | right; reflexivity].
Qed.

(** *** The scale vector in the range of float64 *)

Lemma two_pow_positive (n : nat) : 0 < 2 ^ n.
Proof. apply pow_lt. lra. Qed.

Lemma overflow_threshold_bounds :
  2 ^ 1023 < F64.overflow_threshold /\ F64.overflow_threshold <= 2 ^ 1024.
Proof.
  unfold F64.overflow_threshold.
  change (2 ^ 1024) with (2 * 2 ^ 1023).
  pose proof (two_pow_positive 1023) as H.
  pose proof (two_pow_positive 53) as H53.
  assert (H1 : 0 < / 2 ^ 53) by (apply Rinv_0_lt_compat; exact H53).
  assert (H2 : / 2 ^ 53 < 1).
  { rewrite <- Rinv_1. apply Rinv_lt_contravar; [lra |].
    apply Rlt_pow_R1; [lra | lia]. }
  revert H H1 H2. generalize (2 ^ 1023) (/ 2 ^ 53). intros M e H H1 H2. nra.
Qed.

Lemma underflow_threshold_bound : F64.underflow_threshold < / 2 ^ 1023.
Proof.
  unfold F64.underflow_threshold.
  apply Rinv_lt_contravar.
  - apply Rmult_lt_0_compat; apply two_pow_positive.
  - apply Rlt_pow; [lra | lia].
Qed.

(** A real between [2**-1023] and [2**1023] is a finite float64 other than
    zero. *)
Lemma round_in_range (v : R) :
  / 2 ^ 1023 <= v <= 2 ^ 1023 -> F64.round v = F64.Finite v.
Proof.
  intros [Hlo Hhi]. unfold F64.round.
  pose proof overflow_threshold_bounds as [Ho _].
  pose proof underflow_threshold_bound as Hu.
  destruct (Rle_dec F64.overflow_threshold v) as [H | _]; [lra |].
  destruct (Rle_dec v F64.underflow_threshold) as [H | _]; [lra | reflexivity].
Qed.

Lemma Rpower_inv_base (x y : R) : 0 < x -> Rpower (/ x) y = Rpower x (- y).
Proof.
  intros Hx. unfold Rpower. rewrite ln_Rinv by exact Hx. f_equal. ring.
Qed.

Lemma Rpower_base_one (p : R) : Rpower 1 p = 1.
Proof. unfold Rpower. rewrite ln_1, Rmult_0_r. apply exp_0. Qed.

Lemma bins_at_most_one (n : nat) :
  (1 <= n)%nat -> Forall (fun x => x <= 1) (bins n).
Proof.
  intros Hn. apply Forall_lookup. intros k x Hx.
  assert (Hk : (k < length (bins n))%nat) by (eapply lookup_lt_Some; exact Hx).
  rewrite bins_length in Hk by lia.
  rewrite bins_lookup in Hx by lia. injection Hx as <-.
  assert (Hpos : 0 < INR n) by (apply lt_0_INR; lia).
  assert (H1 : 1 <= INR n) by (change 1 with (INR 1); apply le_INR; lia).
  assert (Hkn : INR k <= INR n).
  { apply le_INR. assert (n / 2 <= n)%nat; [| lia].
    apply Nat.Div0.div_le_upper_bound. lia. }
  destruct (k =? 0)%nat;
    (apply Rmult_le_reg_r with (r := INR n); [exact Hpos |];
     unfold Rdiv; rewrite Rmult_assoc, Rinv_l by lra; lra).
Qed.

(** The powers of a base between [1/n] and 1 lie between [n**(-|p|)] and
    [n**|p|]. *)
Lemma Rpower_between (n b p : R) :
  1 <= n -> / n <= b <= 1 ->
  / Rpower n (Rabs p) <= Rpower b p <= Rpower n (Rabs p).
Proof.
  intros Hn [Hlo Hhi].
  assert (Hinv : 0 < / n) by (apply Rinv_0_lt_compat; lra).
  assert (Hb : 0 < b) by lra.
  assert (Hge1 : forall q, 0 <= q -> 1 <= Rpower n q).
  { intros q Hq. rewrite <- (Rpower_base_one q). apply Rle_Rpower_l; [exact Hq | lra]. }
  assert (Hle1 : forall q, 0 <= q -> / Rpower n q <= 1).
  { intros q Hq. rewrite <- Rinv_1. apply Rinv_le_contravar; [lra | apply Hge1, Hq]. }
  destruct (Rle_lt_dec 0 p) as [Hp | Hp].
  - rewrite (Rabs_pos_eq p Hp).
    assert (H1 : Rpower b p <= 1).
    { rewrite <- (Rpower_base_one p). apply Rle_Rpower_l; [exact Hp | lra]. }
    assert (H2 : / Rpower n p <= Rpower b p).
    { rewrite <- Rpower_Ropp, <- Rpower_inv_base by lra.
      apply Rle_Rpower_l; [exact Hp | lra]. }
    pose proof (Hge1 p Hp). lra.
  - rewrite (Rabs_left p Hp).
    assert (Hq : 0 <= - p) by lra.
    assert (H2 : Rpower b p <= Rpower n (- p)).
    { rewrite <- Rpower_inv_base by lra. apply Rpower_antitone; lra. }
    assert (H3 : 1 <= Rpower b p).
    { rewrite <- (Rpower_base_one p). apply Rpower_antitone; lra. }
    pose proof (Hle1 (- p) Hq). lra.
Qed.

Lemma round_overflow (v : R) : 2 ^ 1024 <= v -> F64.round v = F64.Inf.
Proof.
  intros H. unfold F64.round.
  pose proof overflow_threshold_bounds as [_ Ho].
  destruct (Rle_dec F64.overflow_threshold v) as [_ | Hn]; [reflexivity |].
  exfalso. apply Hn. eapply Rle_trans; eassumption.
Qed.

Lemma round_underflow (v : R) : v <= / 2 ^ 1075 -> F64.round v = F64.Zero.
Proof.
  intros H. unfold F64.round.
  pose proof overflow_threshold_bounds as [Ho _].
  assert (H1 : / 2 ^ 1075 < 2 ^ 1023).
  { apply Rlt_trans with 1.
    - rewrite <- Rinv_1. apply Rinv_lt_contravar; [rewrite Rmult_1_l; apply two_pow_positive |].
      apply Rlt_pow_R1; [lra | lia].
    - apply Rlt_pow_R1; [lra | lia]. }
  destruct (Rle_dec F64.overflow_threshold v) as [Hn | _].
  { exfalso. apply (Rlt_irrefl v).
    apply Rle_lt_trans with (/ 2 ^ 1075); [exact H |].
    apply Rlt_le_trans with F64.overflow_threshold; [| exact Hn].
    apply Rlt_trans with (2 ^ 1023); assumption. }
  destruct (Rle_dec v F64.underflow_threshold) as [_ | Hn]; [reflexivity |].
  exfalso. apply Hn. exact H.
Qed.

Lemma two_pow_le_eight_pow (m n : nat) : (m <= n)%nat -> 2 ^ m <= 8 ^ n.
Proof.
  intros H. apply Rle_trans with (8 ^ m).
  - apply pow_incr. lra.
  - apply Rle_pow; [lra | exact H].
Qed.

Lemma scale_entry_bin_one (exponent : R) :
  scale_vector exponent 0 8 !! 1%nat = Some (Rpower (/ 8) (- exponent / 2)).
Proof.
  unfold scale_vector. rewrite cutoff_zero.
  rewrite (apply_exponent_lookup exponent (bins 8) 1 (INR 1 / INR 8))
    by (apply (bins_lookup 8 1); cbn; lia).
  do 2 f_equal. cbn [INR]. lra.
Qed.

(** C4 fails as stated: over eight samples the entry of bin 1 is
    [8**2500] for exponent 5000, which is infinite as a float64, and
    [8**-2500] for exponent -5000, which is 0 as a float64. *)
Lemma scale_entry_leaves_float_range :
  (exists st,
     sample_spectrum 5000 (Scalar (DInt 8)) 0 (fun _ => 0) = Ok st
     /\ F64.round <$> sp_scale st !! 1%nat = Some F64.Inf)
  /\ (exists st,
        sample_spectrum (-5000) (Scalar (DInt 8)) 0 (fun _ => 0) = Ok st
        /\ F64.round <$> sp_scale st !! 1%nat = Some F64.Zero).
Proof.
  assert (E : 2500 = INR 2500).
  { rewrite INR_IZR_INZ. change (Z.of_nat 2500) with 2500%Z. reflexivity. }
  split; eexists; (split;
    [apply (sample_spectrum_valid _ 0 (Scalar (DInt 8)) (fun _ => 0) [] 8);
       [reflexivity | lia] |]);
    cbn [sp_scale]; rewrite scale_entry_bin_one;
    cbn [fmap option_fmap option_map]; f_equal.
  - apply round_overflow.
    rewrite Rpower_inv_base by lra.
    replace (- (- (5000) / 2)) with (INR 2500) by (rewrite <- E; lra).
    rewrite Rpower_pow by lra. apply two_pow_le_eight_pow. lia.
  - apply round_underflow.
    replace (- -5000 / 2) with (INR 2500) by (rewrite <- E; lra).
    rewrite Rpower_pow by (apply Rinv_0_lt_compat; lra).
    rewrite pow_inv. apply Rinv_le_contravar; [apply two_pow_positive |].
    apply two_pow_le_eight_pow. lia.
Qed.

Lemma apply_exponent_in_range (exponent : R) (n : nat) (s : list R) :
  (1 <= n)%nat ->
  Forall (fun b => 1 / INR n <= b <= 1) s ->
  Rpower (INR n) (Rabs exponent / 2) <= 2 ^ 1023 ->
  Forall (fun x => 0 < x /\ F64.round x = F64.Finite x) (apply_exponent exponent s).
Proof.
  intros Hn Hs Hr. unfold apply_exponent. apply Forall_fmap.
  eapply Forall_impl; [exact Hs |]. cbn. intros b Hb.
  split; [unfold Rpower; apply exp_pos |].
  assert (H1 : 1 <= INR n) by (change 1 with (INR 1); apply le_INR; lia).
  assert (Hp : Rabs (- exponent / 2) = Rabs exponent / 2).
  { unfold Rdiv. rewrite Rabs_mult, Rabs_Ropp, (Rabs_pos_eq (/ 2)) by lra. reflexivity. }
  pose proof (Rpower_between (INR n) b (- exponent / 2) H1) as Hbt.
  rewrite Hp in Hbt.
  destruct Hbt as [Hlo Hhi]; [unfold Rdiv in Hb; lra |].
  apply round_in_range. split; [| lra].
  apply Rle_trans with (/ Rpower (INR n) (Rabs exponent / 2)); [| exact Hlo].
  apply Rinv_le_contravar; [unfold Rpower; apply exp_pos | exact Hr].
Qed.

Lemma bins_range (n : nat) :
  (1 <= n)%nat -> Forall (fun b => 1 / INR n <= b <= 1) (bins n).
Proof.
  intros Hn. apply Forall_lookup. intros k x Hx. split.
  - exact (proj1 (Forall_lookup _ _) (bins_lower_bound n Hn) k x Hx).
  - exact (proj1 (Forall_lookup _ _) (bins_at_most_one n Hn) k x Hx).
Qed.

(** C4, as amended: with [fmin = 0] and [samples >= 1], the scale vector that
    multiplies the spectrum has [samples//2 + 1] entries, its entry [k] is
    [(k/samples)**(-exponent/2)] for [1 <= k <= samples//2] and its first
    entry is [(1/samples)**(-exponent/2)]; every entry is strictly positive
    and finite as a float64 when [samples**(|exponent|/2)] is at most
    [2**1023]. *)
Theorem scale_vector_without_cutoff
    (exponent : R) (size : size_arg) (g : stream) (batch : list nat) (samples : nat) :
  (1 <= samples)%nat ->
  resolved size = int_shape (batch ++ [samples]) ->
  exists st,
    sample_spectrum exponent size 0 g = Ok st
    /\ length (sp_scale st) = (samples / 2 + 1)%nat
    /\ sp_scale st !! 0%nat = Some (Rpower (1 / INR samples) (- exponent / 2))
    /\ (forall k, (1 <= k <= samples / 2)%nat ->
          sp_scale st !! k = Some (Rpower (INR k / INR samples) (- exponent / 2)))
    /\ (Rpower (INR samples) (Rabs exponent / 2) <= 2 ^ 1023 ->
        Forall (fun x => 0 < x /\ F64.round x = F64.Finite x) (sp_scale st)).
Proof.
  intros Hn Hsize. eexists. split.
  { apply sample_spectrum_valid; eassumption. }
  cbn [sp_scale]. unfold scale_vector. rewrite cutoff_zero.
  repeat split.
  - unfold apply_exponent. rewrite length_fmap. apply bins_length, Hn.
  - apply apply_exponent_lookup. rewrite bins_lookup by lia. reflexivity.
  - intros k Hk. apply apply_exponent_lookup. rewrite bins_lookup by lia.
    destruct (Nat.eqb_spec k 0); [lia | reflexivity].
  - intros Hr. apply (apply_exponent_in_range exponent samples); [exact Hn | | exact Hr].
    apply bins_range, Hn.
Qed.

Lemma eight_root_in_range : Rpower (INR 8) (Rabs 1 / 2) <= 2 ^ 1023.
Proof.
  rewrite Rabs_R1.
  assert (H8 : INR 8 = 2 ^ 3) by (cbn [INR pow]; lra).
  apply Rle_trans with (Rpower (INR 8) 1).
  - apply Rle_Rpower; [rewrite H8; cbn [pow]; lra | lra].
  - rewrite Rpower_1 by (rewrite H8; apply two_pow_positive).
    rewrite H8. apply Rle_pow; [lra | lia].
Qed.

Lemma scale_vector_without_cutoff_witness :
  exists st,
    sample_spectrum 1 (Scalar (DInt 8)) 0 (fun _ => 0) = Ok st
    /\ length (sp_scale st) = 5%nat
    /\ sp_scale st !! 0%nat = Some (Rpower (1 / INR 8) (- 1 / 2))
    /\ (forall k, (1 <= k <= 4)%nat ->
          sp_scale st !! k = Some (Rpower (INR k / INR 8) (- 1 / 2)))
    /\ Forall (fun x => 0 < x /\ F64.round x = F64.Finite x) (sp_scale st).
Proof.
  destruct (scale_vector_without_cutoff 1 (Scalar (DInt 8)) (fun _ => 0) [] 8)
    as (st & Hst & Hlen & H0 & Hk & Hrange).
  - lia.
  - reflexivity.
  - exists st. repeat split; try assumption. apply Hrange, eight_root_in_range.
Defined.

(** C5: for [fmin > 0], [ix] is the number of bins strictly below [fmin],
    and these are the bins before index [ix].  When [ix] is less than the
    number of bins, the bins below [ix] are set to the bin at [ix] before
    the exponent is applied and the bins from [ix] on are kept, so that the
    scale vector is constant on the indices [0 .. ix]; when every bin is
    below the cutoff, the scale vector is the one of the unmodified bins. *)
Theorem low_frequency_cutoff
    (exponent fmin : R) (size : size_arg) (g : stream) (batch : list nat) (samples : nat) :
  0 < fmin ->
  (1 <= samples)%nat ->
  resolved size = int_shape (batch ++ [samples]) ->
  let s := bins samples in
  let ix := count_below fmin s in
  exists st,
    sample_spectrum exponent size fmin g = Ok st
    /\ (ix <= length s)%nat
    /\ (forall k x, s !! k = Some x -> (x < fmin <-> (k < ix)%nat))
    /\ ((ix < length s)%nat ->
        exists v, s !! ix = Some v
          /\ (forall k, (k < ix)%nat -> cutoff fmin s !! k = Some v)
          /\ (forall k, (ix <= k)%nat -> cutoff fmin s !! k = s !! k)
          /\ sp_scale st = apply_exponent exponent (cutoff fmin s)
          /\ (forall k, (k <= ix)%nat ->
                sp_scale st !! k = Some (Rpower v (- exponent / 2))))
    /\ (ix = length s -> sp_scale st = apply_exponent exponent s).
Proof.
  intros Hfmin Hn Hsize s ix. eexists. split.
  { apply sample_spectrum_valid; eassumption. }
  split; [apply count_below_le_length |].
  split.
  { intros k x Hx. apply count_below_prefix; [| exact Hx].
    intros j k' a b. apply bins_monotone. exact Hn. }
  cbn [sp_scale]. unfold scale_vector. fold s.
  rewrite cutoff_nonzero by lra. cbv zeta. fold ix. split.
  - intros Hix. destruct (Nat.ltb_spec ix (length s)) as [_ | Hge]; [| lia].
    destruct (lookup_lt_is_Some_2 s ix Hix) as [v Hv].
    assert (Hnth : nth ix s 0 = v) by (apply nth_lookup_Some with (d := 0) in Hv; exact Hv).
    rewrite Hnth.
    assert (Hlow : forall k, (k < ix)%nat ->
              (replicate ix v ++ drop ix s) !! k = Some v).
    { intros k Hk. rewrite lookup_app_l by (rewrite length_replicate; exact Hk).
      apply lookup_replicate_2. exact Hk. }
    assert (Hhigh : forall k, (ix <= k)%nat ->
              (replicate ix v ++ drop ix s) !! k = s !! k).
    { intros k Hk. rewrite lookup_app_r by (rewrite length_replicate; exact Hk).
      rewrite length_replicate, lookup_drop. f_equal. lia. }
    exists v. repeat split; try assumption.
    intros k Hk. apply apply_exponent_lookup.
    destruct (Nat.eq_dec k ix) as [-> | Hne].
    + rewrite Hhigh by lia. exact Hv.
    + apply Hlow. lia.
  - intros Hix. destruct (Nat.ltb_spec ix (length s)) as [Hlt | _]; [lia | reflexivity].
Qed.

Lemma low_frequency_cutoff_witness :
  let s := bins 8 in
  let ix := count_below (1 / 4) s in
  exists st,
    sample_spectrum 1 (Scalar (DInt 8)) (1 / 4) (fun _ => 0) = Ok st
    /\ (ix <= length s)%nat
    /\ (forall k x, s !! k = Some x -> (x < 1 / 4 <-> (k < ix)%nat))
    /\ ((ix < length s)%nat ->
        exists v, s !! ix = Some v
          /\ (forall k, (k < ix)%nat -> cutoff (1 / 4) s !! k = Some v)
          /\ (forall k, (ix <= k)%nat -> cutoff (1 / 4) s !! k = s !! k)
          /\ sp_scale st = apply_exponent 1 (cutoff (1 / 4) s)
          /\ (forall k, (k <= ix)%nat ->
                sp_scale st !! k = Some (Rpower v (- 1 / 2))))
    /\ (ix = length s -> sp_scale st = apply_exponent 1 s).
Proof.
  apply (low_frequency_cutoff 1 (1 / 4) (Scalar (DInt 8)) (fun _ => 0) [] 8).
  - lra.
  - lia.
  - reflexivity.
Defined.

Lemma cutoff_at_most_first_bin (fmin : R) (samples : nat) :
  (1 <= samples)%nat -> fmin <= 1 / INR samples ->
  cutoff fmin (bins samples) = bins samples.
Proof.
  intros Hn Hf. unfold cutoff.
  destruct (Req_dec_T fmin 0) as [_ | _]; [reflexivity |].
  rewrite count_below_none.
  - destruct (0 <? length (bins samples))%nat; reflexivity.
  - eapply Forall_impl; [apply bins_lower_bound, Hn |]. cbn. intros x Hx. lra.
Qed.

(** C10: for [samples >= 1] and [0 < fmin <= 1/samples] no bin is strictly
    below [fmin], the cutoff leaves the bins as they are, and with the same
    draws the call returns what the call with [fmin = 0] returns. *)
Theorem cutoff_below_first_bin
    (exponent fmin : R) (size : size_arg) (g : stream) (batch : list nat) (samples : nat) :
  (1 <= samples)%nat ->
  resolved size = int_shape (batch ++ [samples]) ->
  0 < fmin <= 1 / INR samples ->
  count_below fmin (bins samples) = 0%nat
  /\ cutoff fmin (bins samples) = bins samples
  /\ powerlaw_psd_gaussian exponent size fmin g
     = powerlaw_psd_gaussian exponent size 0 g
  /\ exists out, powerlaw_psd_gaussian exponent size fmin g = Ok out.
Proof.
  intros Hn Hsize [Hpos Hle]. split; [| split; [| split]].
  - apply count_below_none.
    eapply Forall_impl; [apply bins_lower_bound, Hn |]. cbn. intros x Hx. lra.
  - apply cutoff_at_most_first_bin; assumption.
  - unfold powerlaw_psd_gaussian.
    rewrite !(sample_spectrum_valid _ _ _ _ batch samples) by assumption.
    unfold scale_vector. rewrite cutoff_zero, cutoff_at_most_first_bin by assumption.
    reflexivity.
  - unfold powerlaw_psd_gaussian.
    rewrite (sample_spectrum_valid _ _ _ _ batch samples) by assumption.
    eexists. reflexivity.
Qed.

Lemma cutoff_below_first_bin_witness :
  count_below (1 / 8) (bins 8) = 0%nat
  /\ cutoff (1 / 8) (bins 8) = bins 8
  /\ powerlaw_psd_gaussian 1 (Scalar (DInt 8)) (1 / 8) (fun _ => 0)
     = powerlaw_psd_gaussian 1 (Scalar (DInt 8)) 0 (fun _ => 0)
  /\ exists out, powerlaw_psd_gaussian 1 (Scalar (DInt 8)) (1 / 8) (fun _ => 0) = Ok out.
Proof.
  apply (cutoff_below_first_bin 1 (1 / 8) (Scalar (DInt 8)) (fun _ => 0) [] 8).
  - lia.
  - reflexivity.
  - simpl. lra.
Defined.

(** ** Arrays of draws *)

Lemma row_length_snoc (batch : list nat) (m : nat) : row_length (batch ++ [m]) = m.
Proof. unfold row_length. apply last_last. Qed.

Lemma row_count_snoc (batch : list nat) (m : nat) :
  row_count (batch ++ [m]) = foldr Nat.mul 1%nat batch.
Proof. unfold row_count. rewrite removelast_last. reflexivity. Qed.

Lemma fill_rows_lookup (shp : list nat) (g : stream) (r : nat) (row : list R) :
  rows (fill shp g) !! r = Some row ->
  (r < row_count shp)%nat
  /\ row = (fun k => g (r * row_length shp + k)%nat) <$> seq 0 (row_length shp).
Proof.
  unfold fill. cbn [rows]. intros H.
  rewrite list_lookup_fmap in H.
  destruct (seq 0 (row_count shp) !! r) as [r' |] eqn:E; [| discriminate].
  apply lookup_seq in E as [-> Hr]. cbn in H. injection H as <-. split; [exact Hr | reflexivity].
Qed.

Lemma fill_rows_length (shp : list nat) (g : stream) :
  length (rows (fill shp g)) = row_count shp.
Proof. unfold fill. cbn [rows]. rewrite length_fmap, length_seq. reflexivity. Qed.

Lemma constrain_imag_rows_lookup (samples : nat) (si : ndarray R) (r : nat) (row : list R) :
  rows (constrain_imag samples si) !! r = Some row ->
  exists raw,
    rows si !! r = Some raw
    /\ row = <[0%nat := 0]>
               (if (samples mod 2 =? 0)%nat then <[(length raw - 1)%nat := 0]> raw else raw).
Proof.
  unfold constrain_imag, set_column, set_last_column. cbn [rows].
  destruct (samples mod 2 =? 0)%nat; cbn [rows]; intros H.
  - rewrite <- list_fmap_compose, list_lookup_fmap in H.
    destruct (rows si !! r) as [raw |]; [| discriminate].
    exists raw. split; [reflexivity |]. cbn in H. injection H as <-. reflexivity.
  - rewrite list_lookup_fmap in H.
    destruct (rows si !! r) as [raw |]; [| discriminate].
    exists raw. split; [reflexivity |]. cbn in H. injection H as <-. reflexivity.
Qed.

(** C6, as amended: in every realisation the imaginary part of bin 0 is 0
    and, for even [samples], so is the imaginary part of the last bin; for
    odd [samples] greater than 1 the imaginary part of the last bin is the
    variate that was drawn for it. *)
Theorem hermitian_constraints
    (exponent fmin : R) (size : size_arg) (g : stream) (batch : list nat) (samples : nat) :
  (1 <= samples)%nat ->
  resolved size = int_shape (batch ++ [samples]) ->
  let m := (samples / 2 + 1)%nat in
  let shp := spectrum_shape batch samples in
  exists st,
    sample_spectrum exponent size fmin g = Ok st
    /\ length (rows (sp_imag st)) = foldr Nat.mul 1%nat batch
    /\ forall r row,
         rows (sp_imag st) !! r = Some row ->
         length row = m
         /\ row !! 0%nat = Some 0
         /\ ((samples mod 2 = 0)%nat -> last row = Some 0)
         /\ ((samples mod 2 = 1)%nat -> (1 < samples)%nat ->
             last row = Some (advance shp g (r * m + (m - 1))%nat)).
Proof.
  intros Hn Hsize m shp. eexists. split.
  { apply sample_spectrum_valid; eassumption. }
  cbn [sp_imag]. fold shp. split.
  { unfold constrain_imag, set_column, set_last_column.
    destruct (samples mod 2 =? 0)%nat; cbn [rows];
      rewrite ?length_fmap, fill_rows_length; apply row_count_snoc. }
  intros r row Hrow.
  apply constrain_imag_rows_lookup in Hrow as (raw & Hraw & ->).
  apply fill_rows_lookup in Hraw as [Hr ->].
  unfold shp, spectrum_shape. rewrite row_length_snoc. fold m.
  set (raw := (fun k => advance (batch ++ [m]) g (r * m + k)%nat) <$> seq 0 m).
  assert (Hlen : length raw = m) by (unfold raw; rewrite length_fmap, length_seq; reflexivity).
  assert (Hm : (1 <= m)%nat) by (unfold m; lia).
  split; [| split; [| split]].
  - rewrite length_insert. destruct (samples mod 2 =? 0)%nat;
      rewrite ?length_insert; exact Hlen.
  - apply list_lookup_insert_eq.
    destruct (samples mod 2 =? 0)%nat; rewrite ?length_insert; lia.
  - intros Heven. rewrite Heven. cbn [Nat.eqb].
    rewrite last_lookup, length_insert, length_insert.
    replace (Nat.pred (length raw)) with (length raw - 1)%nat by lia.
    destruct (Nat.eq_dec (length raw - 1)%nat 0%nat) as [E | E].
    + rewrite E. apply list_lookup_insert_eq. rewrite length_insert. lia.
    + rewrite list_lookup_insert_ne by lia.
      apply list_lookup_insert_eq. lia.
  - intros Hodd Hgt. rewrite Hodd. cbn [Nat.eqb].
    assert (Hm2 : (2 <= m)%nat).
    { unfold m. assert (1 <= samples / 2)%nat; [| lia].
      apply Nat.div_le_lower_bound; lia. }
    rewrite last_lookup, length_insert.
    replace (Nat.pred (length raw)) with (m - 1)%nat by lia.
    rewrite list_lookup_insert_ne by lia.
    unfold raw. rewrite list_lookup_fmap, lookup_seq_lt by lia. reflexivity.
Qed.

Lemma hermitian_constraints_witness :
  exists st,
    sample_spectrum 1 (Iterable [DInt 2; DInt 3]) 0 (fun i => INR i) = Ok st
    /\ length (rows (sp_imag st)) = 2%nat
    /\ forall r row,
         rows (sp_imag st) !! r = Some row ->
         length row = 2%nat
         /\ row !! 0%nat = Some 0
         /\ ((3 mod 2 = 0)%nat -> last row = Some 0)
         /\ ((3 mod 2 = 1)%nat -> (1 < 3)%nat ->
             last row = Some (advance [2; 2]%nat (fun i => INR i) (r * 2 + (2 - 1))%nat)).
Proof.
  apply (hermitian_constraints 1 0 (Iterable [DInt 2; DInt 3]) (fun i => INR i) [2%nat] 3).
  - lia.
  - reflexivity.
Defined.

(** C6 fails as stated at [samples = 1]: the last bin is bin 0, and its
    imaginary part is 0 whatever was drawn for it (here every draw is 1). *)
Lemma last_bin_constrained_for_one_sample :
  exists st,
    sample_spectrum 1 (Scalar (DInt 1)) 0 (fun _ => 1) = Ok st
    /\ (sp_samples st mod 2 = 1)%nat
    /\ rows (fill [1%nat] (advance [1%nat] (fun _ => 1))) = [[1]]
    /\ rows (sp_imag st) = [[0]].
Proof.
  eexists. split.
  { apply (sample_spectrum_valid 1 0 (Scalar (DInt 1)) (fun _ => 1) [] 1); [reflexivity | lia]. }
  cbn [sp_samples sp_imag]. repeat split.
Qed.

(** ** The weights of the variance normaliser *)

Lemma nyquist_factor_parity (samples : nat) :
  nyquist_factor samples = if (samples mod 2 =? 0)%nat then 1 / 2 else 1.
Proof.
  unfold nyquist_factor.
  pose proof (Nat.mod_upper_bound samples 2 ltac:(lia)) as Hm.
  destruct (samples mod 2)%nat as [| [| r]] eqn:E; cbn [Nat.eqb INR]; [lra | lra | lia].
Qed.

Lemma weights_lookup (s : list R) (samples k : nat) (x : R) :
  (1 <= samples)%nat -> length s = (samples / 2 + 1)%nat ->
  s !! k = Some x ->
  weights s samples !! k = Some ((bin_factor samples k * x) ^ 2).
Proof.
  intros Hn Hlen Hx.
  assert (Hk : (k < length s)%nat) by (eapply lookup_lt_Some; exact Hx).
  unfold weights, bin_factor. rewrite list_lookup_fmap, nyquist_factor_parity.
  destruct (parity_cases samples Hn)
    as [(h & Hh & En & E2 & _ & Emod) | (h & En & E2 & _ & Emod)];
    rewrite Emod; rewrite E2 in Hlen; cbn [Nat.eqb].
  - destruct (Nat.eqb_spec k 0) as [-> | Hk0].
    + rewrite list_lookup_alter_ne by lia.
      rewrite list_lookup_insert_eq by lia. cbn. f_equal. ring.
    + destruct (Nat.eqb_spec (2 * k) samples) as [E | E].
      * replace (length s - 1)%nat with k by lia.
        rewrite list_lookup_alter_eq, list_lookup_insert_ne, Hx by lia.
        cbn [fmap option_fmap option_map]. f_equal. ring.
      * rewrite list_lookup_alter_ne, list_lookup_insert_ne, Hx by lia.
        cbn [fmap option_fmap option_map]. f_equal. ring.
  - destruct (Nat.eqb_spec k 0) as [-> | Hk0].
    + destruct (Nat.eq_dec (length s - 1)%nat 0%nat) as [E | E].
      * rewrite E, list_lookup_alter_eq, list_lookup_insert_eq by lia.
        cbn [fmap option_fmap option_map]. f_equal. ring.
      * rewrite list_lookup_alter_ne, list_lookup_insert_eq by lia.
        cbn [fmap option_fmap option_map]. f_equal. ring.
    + destruct (Nat.eqb_spec (2 * k) samples) as [E | E]; [lia |].
      destruct (Nat.eq_dec (length s - 1)%nat k) as [E' | E'].
      * rewrite E', list_lookup_alter_eq, list_lookup_insert_ne, Hx by lia.
        cbn [fmap option_fmap option_map]. f_equal. ring.
      * rewrite list_lookup_alter_ne, list_lookup_insert_ne, Hx by lia.
        cbn [fmap option_fmap option_map]. f_equal. ring.
Qed.

Lemma list_as_fmap_seq {A} (l : list A) (f : nat -> A) (N : nat) :
  length l = N -> (forall k, (k < N)%nat -> l !! k = Some (f k)) ->
  l = f <$> seq 0 N.
Proof.
  intros Hlen Hl. apply list_eq. intros k.
  rewrite list_lookup_fmap.
  destruct (Nat.lt_ge_cases k N) as [Hk | Hk].
  - rewrite lookup_seq_lt, Hl by exact Hk. reflexivity.
  - rewrite lookup_seq_ge by exact Hk. apply lookup_ge_None. lia.
Qed.

Lemma weights_length (s : list R) (samples : nat) :
  length (weights s samples) = length s.
Proof. unfold weights. rewrite length_fmap, length_alter, length_insert. reflexivity. Qed.

Lemma weights_closed_form (s : list R) (samples : nat) :
  (1 <= samples)%nat -> length s = (samples / 2 + 1)%nat ->
  weights s samples
  = (fun k => (bin_factor samples k * nth k s 0) ^ 2) <$> seq 0 (samples / 2 + 1).
Proof.
  intros Hn Hlen. apply list_as_fmap_seq.
  - rewrite weights_length. exact Hlen.
  - intros k Hk.
    destruct (lookup_lt_is_Some_2 s k ltac:(lia)) as [x Hx].
    rewrite (weights_lookup s samples k x Hn Hlen Hx).
    apply nth_lookup_Some with (d := 0) in Hx. rewrite Hx. reflexivity.
Qed.

Lemma scale_vector_length (exponent fmin : R) (samples : nat) :
  (1 <= samples)%nat -> length (scale_vector exponent fmin samples) = (samples / 2 + 1)%nat.
Proof.
  intros Hn. unfold scale_vector, apply_exponent. rewrite length_fmap.
  unfold cutoff. destruct (Req_dec_T fmin 0); [apply bins_length, Hn |].
  pose proof (count_below_le_length fmin (bins samples)) as Hc.
  destruct (Nat.ltb_spec (count_below fmin (bins samples)) (length (bins samples)));
    [| apply bins_length, Hn].
  rewrite length_app, length_replicate, length_drop, <- (bins_length samples Hn). lia.
Qed.

Lemma scale_vector_positive (exponent fmin : R) (samples : nat) :
  Forall (fun x => 0 < x) (scale_vector exponent fmin samples).
Proof. apply apply_exponent_positive. Qed.

(** The scale vector of white noise over two samples. *)
Lemma scale_vector_white_2 : scale_vector 0 0 2 = [1; 1].
Proof.
  unfold scale_vector. rewrite cutoff_zero.
  assert (Hp : forall x, 0 < x -> Rpower x (- 0 / 2) = 1).
  { intros x Hx. replace (- 0 / 2) with 0 by lra. apply Rpower_O, Hx. }
  apply list_eq. intros [| [| k]].
  - rewrite (apply_exponent_lookup 0 (bins 2) 0 (1 / INR 2)) by (apply (bins_lookup 2 0); lia).
    cbn [lookup list_lookup]. f_equal. apply Hp. cbn [INR]. lra.
  - rewrite (apply_exponent_lookup 0 (bins 2) 1 (INR 1 / INR 2)) by (apply (bins_lookup 2 1); cbn; lia).
    cbn [lookup list_lookup]. f_equal. apply Hp. cbn [INR]. lra.
  - transitivity (@None R); [| reflexivity].
    apply lookup_ge_None. unfold apply_exponent.
    rewrite length_fmap, bins_length by lia. cbn. lia.
Qed.

Lemma sqrt_quarter : sqrt (1 / 4) = 1 / 2.
Proof.
  replace (1 / 4) with ((1 / 2) * (1 / 2)) by lra. apply sqrt_square. lra.
Qed.

Lemma std_white_2 : std [1; 1] 2 = 1 / 2.
Proof.
  unfold std, weights, nyquist_factor.
  cbn [length Nat.sub alter list_alter insert list_insert fmap list_fmap Np.sum foldr
         Nat.modulo Nat.divmod snd INR].
  replace (0 ^ 2 + ((1 * ((1 + 0) / 2)) ^ 2 + 0)) with (1 / 4) by lra.
  rewrite sqrt_quarter. lra.
Qed.

(** C2 fails as stated: over two samples the factor is 1/2, not 1, and the
    standard deviation computed with the step is not the one computed
    without it. *)
Lemma nyquist_step_not_identity :
  nyquist_factor 2 <> 1
  /\ std (scale_vector 0 0 2) 2 <> std_without_nyquist_step (scale_vector 0 0 2) 2.
Proof.
  split.
  - rewrite nyquist_factor_parity. cbn. lra.
  - rewrite scale_vector_white_2, std_white_2.
    unfold std_without_nyquist_step, weights_without_nyquist_step.
    cbn [insert list_insert fmap list_fmap Np.sum foldr INR].
    replace (0 ^ 2 + (1 ^ 2 + 0)) with 1 by lra.
    rewrite sqrt_1. lra.
Qed.

(** C2, as amended: the factor [(1 + samples % 2) / 2] is 1 for odd
    [samples] and 1/2 for even [samples]; for odd [samples] the step is a
    no-op and leaves the standard deviation as it is, for even [samples] it
    halves the last entry before the entries are squared. *)
Theorem nyquist_step (samples : nat) (s_scale : list R) :
  nyquist_factor samples = (if (samples mod 2 =? 0)%nat then 1 / 2 else 1)
  /\ (if (samples mod 2 =? 0)%nat
      then weights s_scale samples
           = (fun w => w ^ 2)
               <$> alter (fun w => w / 2) (length s_scale - 1)%nat (<[0%nat := 0]> s_scale)
      else weights s_scale samples = weights_without_nyquist_step s_scale
           /\ std s_scale samples = std_without_nyquist_step s_scale samples).
Proof.
  split; [apply nyquist_factor_parity |].
  assert (Hw : forall f, (forall w, w * nyquist_factor samples = f w) ->
             weights s_scale samples
             = (fun w => w ^ 2) <$> alter f (length s_scale - 1)%nat (<[0%nat := 0]> s_scale)).
  { intros f Hf. unfold weights. f_equal.
    apply list_alter_ext; [| reflexivity]. intros x _. apply Hf. }
  rewrite nyquist_factor_parity in Hw.
  destruct (samples mod 2 =? 0)%nat.
  - apply Hw. intros w. lra.
  - assert (E : weights s_scale samples = weights_without_nyquist_step s_scale).
    { rewrite (Hw (fun w => w)) by (intros w; lra).
      unfold weights_without_nyquist_step. f_equal.
      apply list_alter_id. reflexivity. }
    split; [exact E |]. unfold std, std_without_nyquist_step. rewrite E. reflexivity.
Qed.

Lemma std_closed_form (s : list R) (samples : nat) :
  (1 <= samples)%nat -> length s = (samples / 2 + 1)%nat ->
  std s samples
  = 2 * sqrt (Np.sum ((fun k => (bin_factor samples k * nth k s 0) ^ 2)
                        <$> seq 0 (samples / 2 + 1))) / INR samples.
Proof. intros Hn Hlen. unfold std. rewrite weights_closed_form by assumption. reflexivity. Qed.

(** C3 fails as stated: over two samples, squaring first and multiplying the
    last weight by the factor afterwards gives another standard deviation
    than the code computes. *)
Lemma std_differs_from_description :
  std (scale_vector 0 0 2) 2 = 1 / 2
  /\ std_as_described (scale_vector 0 0 2) 2 <> 1 / 2.
Proof.
  rewrite scale_vector_white_2. split; [apply std_white_2 |].
  unfold std_as_described, weights_as_described, nyquist_factor.
  cbn [length Nat.sub alter list_alter insert list_insert fmap list_fmap Np.sum foldr
         Nat.modulo Nat.divmod snd INR].
  replace (0 + (1 ^ 2 * ((1 + 0) / 2) + 0)) with (1 / 2) by lra.
  intros H.
  assert (Hs : sqrt (1 / 2) = 1 / 2) by lra.
  pose proof (sqrt_sqrt (1 / 2) ltac:(lra)) as Hq.
  rewrite Hs in Hq. lra.
Qed.

(** C3, as amended: the standard deviation is [2 * sqrt(sum of weights) /
    samples], where the weight of bin 0 is 0, the weight of the bin at
    [samples/2] of an even length is the square of half its scale (the
    factor is applied before the squaring), and the weight of every other
    bin is the square of its scale; the returned array is the output of the
    inverse transform divided elementwise by this standard deviation. *)
Theorem theoretical_std
    (exponent fmin : R) (size : size_arg) (g : stream) (batch : list nat) (samples : nat) :
  (1 <= samples)%nat ->
  resolved size = int_shape (batch ++ [samples]) ->
  exists st,
    sample_spectrum exponent size fmin g = Ok st
    /\ let sigma :=
         2 * sqrt (Np.sum ((fun k => (bin_factor samples k * nth k (sp_scale st) 0) ^ 2)
                             <$> seq 0 (samples / 2 + 1))) / INR samples in
       let y :=
         irfft (mk (shape (sp_real st))
                  (zip_with (scaled_row (sp_scale st))
                     (rows (sp_real st)) (rows (sp_imag st)))) samples in
       std (sp_scale st) samples = sigma
       /\ powerlaw_psd_gaussian exponent size fmin g
          = Ok (mk (batch ++ [samples])
                  ((fun row : list R => (fun v => v / sigma) <$> row) <$> rows y),
                sp_stream st).
Proof.
  intros Hn Hsize. eexists. split.
  { apply sample_spectrum_valid; eassumption. }
  cbn [sp_scale sp_real sp_imag sp_stream]. cbv zeta.
  assert (Hstd := std_closed_form (scale_vector exponent fmin samples) samples Hn
                    (scale_vector_length exponent fmin samples Hn)).
  split; [exact Hstd |].
  unfold powerlaw_psd_gaussian.
  rewrite (sample_spectrum_valid _ _ _ _ batch samples) by assumption.
  cbn [bind]. unfold synthesize. cbn [sp_scale sp_real sp_imag sp_stream sp_samples].
  rewrite Hstd. unfold irfft, fill, spectrum_shape. cbn [shape rows].
  rewrite removelast_last. reflexivity.
Qed.

Lemma theoretical_std_witness :
  exists st,
    sample_spectrum 1 (Scalar (DInt 8)) 0 (fun i => INR i) = Ok st
    /\ let sigma :=
         2 * sqrt (Np.sum ((fun k => (bin_factor 8 k * nth k (sp_scale st) 0) ^ 2)
                             <$> seq 0 (8 / 2 + 1))) / INR 8 in
       let y :=
         irfft (mk (shape (sp_real st))
                  (zip_with (scaled_row (sp_scale st))
                     (rows (sp_real st)) (rows (sp_imag st)))) 8 in
       std (sp_scale st) 8 = sigma
       /\ powerlaw_psd_gaussian 1 (Scalar (DInt 8)) 0 (fun i => INR i)
          = Ok (mk [8%nat]
                  ((fun row : list R => (fun v => v / sigma) <$> row) <$> rows y),
                sp_stream st).
Proof.
  apply (theoretical_std 1 0 (Scalar (DInt 8)) (fun i => INR i) [] 8).
  - lia.
  - reflexivity.
Defined.

(** ** Shape of the result *)

Lemma irfft_row_length (n : nat) (a : list complex) : length (irfft_row n a) = n.
Proof. unfold irfft_row. rewrite length_fmap, length_seq. reflexivity. Qed.

Lemma constrain_imag_rows_length (samples : nat) (si : ndarray R) :
  length (rows (constrain_imag samples si)) = length (rows si).
Proof.
  unfold constrain_imag, set_column, set_last_column.
  destruct (samples mod 2 =? 0)%nat; cbn [rows]; rewrite ?length_fmap; reflexivity.
Qed.

(** C7: for a positive integer [n], or a non-empty sequence of positive
    integers, the call returns an array of real numbers whose shape is
    [(n,)], respectively the given sequence, with as many rows as the
    leading extents ask for and every row of length [samples]. *)
Theorem output_shape
    (exponent fmin : R) (size : size_arg) (g : stream) (dims : list nat) :
  dims <> [] ->
  Forall (fun d => (1 <= d)%nat) dims ->
  resolved size = int_shape dims ->
  exists (y : ndarray R) (g' : stream),
    powerlaw_psd_gaussian exponent size fmin g = Ok (y, g')
    /\ shape y = dims
    /\ (forall n, size = Scalar (DInt (Z.of_nat n)) -> shape y = [n])
    /\ well_formed y
    /\ row_length (shape y) = List.last dims 1%nat.
Proof.
  intros Hne Hpos Hsize.
  destruct (exists_last Hne) as (batch & samples & ->).
  assert (Hn : (1 <= samples)%nat).
  { rewrite Forall_app in Hpos. destruct Hpos as [_ Hl]. inversion Hl; assumption. }
  unfold powerlaw_psd_gaussian.
  rewrite (sample_spectrum_valid _ _ _ _ batch samples) by assumption.
  cbn [bind]. eexists _, _. split; [reflexivity |].
  unfold synthesize, irfft, fill, spectrum_shape.
  cbn [sp_scale sp_real sp_imag sp_stream sp_samples shape rows].
  rewrite removelast_last. split; [reflexivity |]. split; [| split].
  - intros n ->. cbn in Hsize. destruct batch as [| b [| b' batch]]; cbn in Hsize.
    + injection Hsize as Hs. apply Nat2Z.inj in Hs. subst. reflexivity.
    + discriminate.
    + discriminate.
  - unfold well_formed. cbn [shape rows]. split.
    + rewrite !length_fmap, length_zip_with, length_fmap, length_seq.
      rewrite constrain_imag_rows_length. cbn [rows].
      rewrite length_fmap, length_seq, !row_count_snoc. lia.
    + rewrite row_length_snoc. apply Forall_fmap, Forall_fmap, Forall_true.
      intros a. cbn. rewrite length_fmap. apply irfft_row_length.
  - rewrite row_length_snoc, last_last. reflexivity.
Qed.

Lemma output_shape_witness :
  exists (y : ndarray R) (g' : stream),
    powerlaw_psd_gaussian 1 (Iterable [DInt 2; DInt 3; DInt 8]) 0 (fun i => INR i) = Ok (y, g')
    /\ shape y = [2; 3; 8]%nat
    /\ (forall n, Iterable [DInt 2; DInt 3; DInt 8] = Scalar (DInt (Z.of_nat n)) -> shape y = [n])
    /\ well_formed y
    /\ row_length (shape y) = List.last [2; 3; 8]%nat 1%nat.
Proof.
  apply (output_shape 1 0 (Iterable [DInt 2; DInt 3; DInt 8]) (fun i => INR i) [2; 3; 8]%nat).
  - discriminate.
  - repeat constructor.
  - reflexivity.
Defined.

(** ** Failures *)

Lemma new_shape_rejected (l : list dim) :
  Exists rejected l ->
  new_shape l = Raise "TypeError"%string \/ new_shape l = Raise "ValueError"%string.
Proof.
  intros H. unfold new_shape.
  destruct (existsb is_other l) eqn:Eo; [left; reflexivity |].
  right.
  assert (En : existsb is_negative l = true).
  { apply existsb_exists. apply Exists_exists in H as (d & Hin & Hd).
    exists d. split; [apply list_elem_of_In; exact Hin |].
    destruct d as [z |].
    - cbn in *. apply Z.ltb_lt. exact Hd.
    - exfalso. assert (existsb is_other l = true); [| congruence].
      apply existsb_exists. exists DOther. split; [apply list_elem_of_In; exact Hin | reflexivity]. }
  rewrite En. reflexivity.
Qed.

Lemma new_shape_app_rejected (l l' : list dim) :
  Exists rejected l ->
  new_shape (l ++ l') = Raise "TypeError"%string
  \/ new_shape (l ++ l') = Raise "ValueError"%string.
Proof. intros H. apply new_shape_rejected, Exists_app. left. exact H. Qed.

Lemma snoc_cases {A} (l : list A) : l = [] \/ exists l' x, l = l' ++ [x].
Proof. induction l using rev_ind; [left; reflexivity | right; eauto]. Qed.

(** C8 fails as stated: the integer shape [0] makes the call fail with the
    [ZeroDivisionError] of [fftfreq], not with an [InvalidShapeError]. *)
Lemma zero_shape_raises_zero_division :
  powerlaw_psd_gaussian 1 (Scalar (DInt 0)) 0 (fun _ => 0)
  = Raise "ZeroDivisionError"%string
  /\ powerlaw_psd_gaussian 1 (Scalar (DInt 0)) 0 (fun _ => 0)
     <> Raise "InvalidShapeError"%string.
Proof. split; [reflexivity | discriminate]. Qed.

(** C8, as amended: a shape that contains a negative or a non-integer
    dimension, or whose last dimension is 0, makes the call fail without
    output, with the [ZeroDivisionError], [ValueError] or [TypeError] that
    the interpreter or numpy raises there (the code has no
    [InvalidShapeError]); a zero among the leading dimensions of an otherwise
    valid shape is accepted and gives an array without rows. *)
Theorem invalid_shape_fails (exponent fmin : R) (size : size_arg) (g : stream) :
  (Exists rejected (resolved size) \/ (exists l, resolved size = l ++ [DInt 0]) ->
   exists err,
     powerlaw_psd_gaussian exponent size fmin g = Raise err
     /\ In err ["ZeroDivisionError"; "ValueError"; "TypeError"]%string
     /\ err <> "InvalidShapeError"%string)
  /\ (forall batch samples,
        resolved size = int_shape (batch ++ [samples]) ->
        (1 <= samples)%nat -> In 0%nat batch ->
        exists (y : ndarray R) (g' : stream),
          powerlaw_psd_gaussian exponent size fmin g = Ok (y, g')
          /\ shape y = batch ++ [samples] /\ rows y = []).
Proof.
  split.
  - intros H.
    assert (Hin : forall err,
              In err ["ZeroDivisionError"; "ValueError"; "TypeError"]%string ->
              err <> "InvalidShapeError"%string).
    { intros err [<- | [<- | [<- | []]]]; discriminate. }
    enough (exists err,
              powerlaw_psd_gaussian exponent size fmin g = Raise err
              /\ In err ["ZeroDivisionError"; "ValueError"; "TypeError"]%string)
      as (err & He & Hi) by (exists err; auto).
    unfold powerlaw_psd_gaussian, sample_spectrum. rewrite try_list_of. cbn [bind].
    destruct (snoc_cases (resolved size)) as [El | (l & x & El)]; rewrite El in *.
    { destruct H as [H | [l H]]; [inversion H | destruct l; discriminate]. }
    rewrite last_item_snoc. cbn [bind].
    destruct x as [z |].
    + unfold Np.fftfreq.
      destruct (Z.eqb_spec z 0) as [-> | Hz0].
      { eexists. split; [reflexivity | cbn; auto]. }
      destruct (Z.ltb_spec z 0) as [Hneg | Hpos].
      { eexists. split; [reflexivity | cbn; auto]. }
      cbn [bind].
      assert (Hl : Exists rejected l).
      { destruct H as [H | [l' H]].
        - apply Exists_app in H as [H | H]; [exact H |].
          apply Exists_cons in H as [H | H]; [cbn in H; lia | inversion H].
        - apply app_inj_tail in H as [_ H]. injection H as H. lia. }
      rewrite length_app. cbn [length].
      replace (length l + 1 - 1)%nat with (length l + 0)%nat by lia.
      rewrite insert_app_r. cbn [insert list_insert].
      destruct (new_shape_app_rejected l
                  [DInt (Z.of_nat (length (s_scale_bins
                     ((fun i => IZR i * (1 / (IZR z * 1))) <$> Np.fftfreq_grid (Z.to_nat z))
                     (extent (DInt z)))))] Hl) as [E | E];
        unfold normal; rewrite E; cbn [bind];
        eexists; (split; [reflexivity | cbn; auto]).
    + eexists. split; [reflexivity | cbn; auto].
  - intros batch samples Hsize Hn H0.
    unfold powerlaw_psd_gaussian.
    rewrite (sample_spectrum_valid _ _ _ _ batch samples) by assumption.
    cbn [bind]. eexists _, _. split; [reflexivity |].
    unfold synthesize, irfft, fill, spectrum_shape.
    cbn [sp_scale sp_real sp_imag sp_stream sp_samples shape rows fst].
    rewrite removelast_last. split; [reflexivity |].
    assert (Hc : foldr Nat.mul 1%nat batch = 0%nat).
    { clear -H0. induction batch as [| b batch IH]; [destruct H0 |].
      cbn [foldr]. destruct H0 as [-> | H0]; [reflexivity |].
      rewrite (IH H0). lia. }
    rewrite row_count_snoc, Hc. reflexivity.
Qed.

Lemma invalid_shape_fails_witness :
  (exists err,
     powerlaw_psd_gaussian 1 (Iterable [DInt 4; DInt (-8)]) 0 (fun _ => 0) = Raise err
     /\ In err ["ZeroDivisionError"; "ValueError"; "TypeError"]%string
     /\ err <> "InvalidShapeError"%string)
  /\ (exists (y : ndarray R) (g' : stream),
        powerlaw_psd_gaussian 1 (Iterable [DInt 0; DInt 8]) 0 (fun _ => 0) = Ok (y, g')
        /\ shape y = [0; 8]%nat /\ rows y = []).
Proof.
  split.
  - apply (proj1 (invalid_shape_fails 1 0 (Iterable [DInt 4; DInt (-8)]) (fun _ => 0))).
    left. cbn. apply Exists_cons_tl, Exists_cons_hd. cbn. lia.
  - apply (proj2 (invalid_shape_fails 1 0 (Iterable [DInt 0; DInt 8]) (fun _ => 0))
             [0%nat] 8%nat).
    + reflexivity.
    + lia.
    + left. reflexivity.
Defined.

(** ** Sums *)

Lemma sum_app (l1 l2 : list R) : Np.sum (l1 ++ l2) = Np.sum l1 + Np.sum l2.
Proof.
  induction l1 as [| x l1 IH]; cbn [app Np.sum foldr].
  - unfold Np.sum. cbn. lra.
  - fold (Np.sum (l1 ++ l2)). fold (Np.sum l1). rewrite IH. lra.
Qed.

Lemma sum_cons (x : R) (l : list R) : Np.sum (x :: l) = x + Np.sum l.
Proof. reflexivity. Qed.

Lemma sum_fmap_ext {A} (f h : A -> R) (l : list A) :
  (forall x, In x l -> f x = h x) -> Np.sum (f <$> l) = Np.sum (h <$> l).
Proof.
  intros H. induction l as [| x l IH]; [reflexivity |].
  cbn [fmap list_fmap]. rewrite !sum_cons. rewrite H by (left; reflexivity).
  f_equal. apply IH. intros y Hy. apply H. right. exact Hy.
Qed.

Lemma sum_fmap_plus {A} (f h : A -> R) (l : list A) :
  Np.sum ((fun x => f x + h x) <$> l) = Np.sum (f <$> l) + Np.sum (h <$> l).
Proof.
  induction l as [| x l IH]; cbn [fmap list_fmap]; rewrite ?sum_cons.
  - unfold Np.sum. cbn. lra.
  - rewrite IH. lra.
Qed.

Lemma sum_fmap_scal {A} (c : R) (f : A -> R) (l : list A) :
  Np.sum ((fun x => c * f x) <$> l) = c * Np.sum (f <$> l).
Proof.
  induction l as [| x l IH]; cbn [fmap list_fmap]; rewrite ?sum_cons.
  - unfold Np.sum. cbn. lra.
  - rewrite IH. lra.
Qed.

Lemma sum_fmap_zero {A} (l : list A) : Np.sum ((fun _ => 0) <$> l) = 0.
Proof.
  induction l as [| x l IH]; cbn [fmap list_fmap]; rewrite ?sum_cons.
  - reflexivity.
  - rewrite IH. lra.
Qed.

Lemma sum_fmap_const {A} (c : R) (l : list A) :
  Np.sum ((fun _ => c) <$> l) = INR (length l) * c.
Proof.
  induction l as [| x l IH]; cbn [fmap list_fmap length]; rewrite ?sum_cons.
  - cbn. lra.
  - rewrite IH, S_INR. lra.
Qed.

Lemma sum_swap {A B} (f : A -> B -> R) (la : list A) (lb : list B) :
  Np.sum ((fun a => Np.sum ((fun b => f a b) <$> lb)) <$> la)
  = Np.sum ((fun b => Np.sum ((fun a => f a b) <$> la)) <$> lb).
Proof.
  induction la as [| a la IH]; cbn [fmap list_fmap]; rewrite ?sum_cons.
  - rewrite sum_fmap_zero. reflexivity.
  - rewrite IH, <- sum_fmap_plus. reflexivity.
Qed.

(** The one term that a sum over [0 .. m-1] keeps when all others vanish. *)
Lemma sum_single (f : nat -> R) (m : nat) :
  (1 <= m)%nat -> (forall k, (1 <= k < m)%nat -> f k = 0) ->
  Np.sum (f <$> seq 0 m) = f 0%nat.
Proof.
  intros Hm H. destruct m as [| m]; [lia |].
  cbn [seq fmap list_fmap]. rewrite sum_cons.
  rewrite (sum_fmap_ext f (fun _ => 0)), sum_fmap_zero; [lra |].
  intros k Hk. apply in_seq in Hk. apply H. lia.
Qed.

(** ** Expectations of linear and quadratic forms *)

Section Expectation.
Variables (N : nat) (E : (stream -> R) -> R).
Hypothesis HE : expectation N E.

Lemma E_zero : E (fun _ => 0) = 0.
Proof.
  rewrite (E_ext N E HE (fun _ => 0) (fun g => 0 * 0)) by (intros g; lra).
  rewrite (E_scal N E HE 0 (fun _ => 0)). lra.
Qed.

Lemma E_minus (f h : stream -> R) : E (fun g => f g - h g) = E f - E h.
Proof.
  rewrite (E_ext N E HE _ (fun g => f g + (-1) * h g)) by (intros g; lra).
  rewrite (E_plus N E HE), (E_scal N E HE). lra.
Qed.

Lemma E_sum {A} (f : A -> stream -> R) (l : list A) :
  E (fun g => Np.sum ((fun x => f x g) <$> l)) = Np.sum ((fun x => E (f x)) <$> l).
Proof.
  induction l as [| x l IH]; cbn [fmap list_fmap].
  - apply E_zero.
  - rewrite sum_cons, <- IH.
    rewrite <- (E_plus N E HE). apply (E_ext N E HE). intros g. apply sum_cons.
Qed.

Lemma lin_cons (c : R) (i : nat) (l : list (R * nat)) (g : stream) :
  lin ((c, i) :: l) g = c * g i + lin l g.
Proof. reflexivity. Qed.

Lemma E_coord_lin (i : nat) (l : list (R * nat)) :
  (i < N)%nat -> Forall (fun ci => (ci.2 < N)%nat) l -> ~ In i (l.*2) ->
  E (fun g => g i * lin l g) = 0.
Proof.
  intros Hi Hl Hni. induction l as [| [c j] l IH].
  - rewrite (E_ext N E HE _ (fun _ => 0)); [apply E_zero |].
    intros g. unfold lin. cbn. lra.
  - inversion Hl as [| ? ? Hj Hl']; subst. cbn in Hj, Hni.
    rewrite (E_ext N E HE _ (fun g => c * (g i * g j) + g i * lin l g))
      by (intros g; rewrite lin_cons; ring).
    rewrite (E_plus N E HE), (E_scal N E HE), (E_moment N E HE) by assumption.
    destruct (Nat.eqb_spec i j) as [-> | _]; [exfalso; apply Hni; left; reflexivity |].
    rewrite IH; [lra | exact Hl' |]. intros H. apply Hni. right. exact H.
Qed.

Lemma E_lin_sq (l : list (R * nat)) :
  Forall (fun ci => (ci.2 < N)%nat) l -> NoDup (l.*2) ->
  E (fun g => lin l g ^ 2) = Np.sum ((fun ci => ci.1 ^ 2) <$> l).
Proof.
  intros Hl Hnd. induction l as [| [c j] l IH].
  - rewrite (E_ext N E HE _ (fun _ => 0)); [apply E_zero |].
    intros g. unfold lin. cbn. lra.
  - inversion Hl as [| ? ? Hj Hl']; subst. cbn in Hj.
    cbn [fmap list_fmap fst snd] in Hnd. apply NoDup_cons in Hnd as [Hnj Hnd].
    rewrite (E_ext N E HE _
               (fun g => c ^ 2 * (g j * g j) + (2 * c * (g j * lin l g) + lin l g ^ 2)))
      by (intros g; rewrite lin_cons; ring).
    rewrite !(E_plus N E HE), !(E_scal N E HE), (E_moment N E HE) by assumption.
    rewrite Nat.eqb_refl, E_coord_lin, IH; try assumption.
    + cbn [fmap list_fmap]. rewrite sum_cons. cbn [fst]. lra.
    + intros H. apply Hnj. apply list_elem_of_In. exact H.
Qed.

End Expectation.

(** ** Sums of sines and cosines over a full period *)

Section Trigonometry.
Variable theta : R.

Lemma cos_partial_sum (T : nat) :
  2 * sin (theta / 2) * Np.sum ((fun t => cos (theta * INR t)) <$> seq 0 T)
  = sin ((INR T - 1 / 2) * theta) + sin (theta / 2).
Proof.
  induction T as [| T IH].
  - cbn [seq fmap list_fmap Np.sum foldr INR].
    replace ((0 - 1 / 2) * theta) with (- (theta / 2)) by lra.
    rewrite sin_neg. lra.
  - rewrite seq_S, fmap_app, sum_app. cbn [fmap list_fmap Nat.add].
    rewrite sum_cons. change (Np.sum []) with 0.
    rewrite S_INR.
    replace ((INR T + 1 - 1 / 2) * theta) with (theta * INR T + theta / 2) by lra.
    replace ((INR T - 1 / 2) * theta) with (theta * INR T - theta / 2) in IH by lra.
    rewrite sin_plus. rewrite sin_minus in IH.
    rewrite Rplus_0_r, Rmult_plus_distr_l, IH. ring.
Qed.

Lemma sin_partial_sum (T : nat) :
  2 * sin (theta / 2) * Np.sum ((fun t => sin (theta * INR t)) <$> seq 0 T)
  = cos (theta / 2) - cos ((INR T - 1 / 2) * theta).
Proof.
  induction T as [| T IH].
  - cbn [seq fmap list_fmap Np.sum foldr INR].
    replace ((0 - 1 / 2) * theta) with (- (theta / 2)) by lra.
    rewrite cos_neg. lra.
  - rewrite seq_S, fmap_app, sum_app. cbn [fmap list_fmap Nat.add].
    rewrite sum_cons. change (Np.sum []) with 0.
    rewrite S_INR.
    replace ((INR T + 1 - 1 / 2) * theta) with (theta * INR T + theta / 2) by lra.
    replace ((INR T - 1 / 2) * theta) with (theta * INR T - theta / 2) in IH by lra.
    rewrite cos_plus. rewrite cos_minus in IH.
    rewrite Rplus_0_r, Rmult_plus_distr_l, IH. ring.
Qed.

End Trigonometry.

Lemma half_angle_sin_nonzero (n k : nat) :
  (0 < k < n)%nat -> sin (2 * PI * INR k / INR n / 2) <> 0.
Proof.
  intros [Hk Hn].
  assert (Hn' : 0 < INR n) by (apply lt_0_INR; lia).
  assert (Hk' : 0 < INR k) by (apply lt_0_INR; lia).
  assert (Hkn : INR k < INR n) by (apply lt_INR; exact Hn).
  assert (HPI := PI_RGT_0).
  replace (2 * PI * INR k / INR n / 2) with (PI * (INR k / INR n)) by (field; lra).
  assert (Hq : 0 < INR k / INR n < 1).
  { split; [apply Rdiv_lt_0_compat; lra |].
    apply Rmult_lt_reg_r with (r := INR n); [lra |].
    unfold Rdiv. rewrite Rmult_assoc, Rinv_l by lra. lra. }
  apply Rgt_not_eq, sin_gt_0; nra.
Qed.

Lemma full_period_angle (n k : nat) :
  (0 < n)%nat ->
  (INR n - 1 / 2) * (2 * PI * INR k / INR n)
  = - (2 * PI * INR k / INR n / 2) + 2 * INR k * PI.
Proof.
  intros Hn. assert (Hn' : 0 < INR n) by (apply lt_0_INR; lia).
  field. lra.
Qed.

Lemma angle_as_product (n k t : nat) : angle n k t = 2 * PI * INR k / INR n * INR t.
Proof. unfold angle. unfold Rdiv. ring. Qed.

Lemma cos_full_sum (n k : nat) :
  (0 < k < n)%nat -> Np.sum ((fun t => cos (angle n k t)) <$> seq 0 n) = 0.
Proof.
  intros Hk.
  pose proof (cos_partial_sum (2 * PI * INR k / INR n) n) as H.
  rewrite full_period_angle, sin_period, sin_neg in H by lia.
  rewrite (sum_fmap_ext _ (fun t => cos (2 * PI * INR k / INR n * INR t)))
    by (intros t _; rewrite angle_as_product; reflexivity).
  pose proof (half_angle_sin_nonzero n k Hk) as Hs.
  apply Rmult_eq_reg_l with (r := 2 * sin (2 * PI * INR k / INR n / 2)); [lra | lra].
Qed.

Lemma sin_full_sum (n k : nat) :
  (0 < k < n)%nat -> Np.sum ((fun t => sin (angle n k t)) <$> seq 0 n) = 0.
Proof.
  intros Hk.
  pose proof (sin_partial_sum (2 * PI * INR k / INR n) n) as H.
  rewrite full_period_angle, cos_period, cos_neg in H by lia.
  rewrite (sum_fmap_ext _ (fun t => sin (2 * PI * INR k / INR n * INR t)))
    by (intros t _; rewrite angle_as_product; reflexivity).
  pose proof (half_angle_sin_nonzero n k Hk) as Hs.
  apply Rmult_eq_reg_l with (r := 2 * sin (2 * PI * INR k / INR n / 2)); [lra | lra].
Qed.

Lemma alternating_sum (h : nat) :
  Np.sum ((fun t => (-1) ^ t) <$> seq 0 (2 * h)) = 0.
Proof.
  induction h as [| h IH]; [reflexivity |].
  replace (2 * S h)%nat with (S (S (2 * h))) by lia.
  rewrite !seq_S, !fmap_app, !sum_app, IH. cbn [fmap list_fmap Nat.add].
  rewrite !sum_cons. change (Np.sum []) with 0.
  rewrite pow_1_even, pow_1_odd. lra.
Qed.

Lemma alternating_square (t : nat) : ((-1) ^ t) ^ 2 = 1.
Proof.
  rewrite <- pow_mult, Nat.mul_comm, pow_mult.
  replace ((-1) ^ 2) with 1 by lra. apply pow1.
Qed.

(** ** One realisation as a function of the stream *)

Lemma sum_sq_shift (a : R) (y : list R) :
  Np.sum ((fun v => (v - a) ^ 2) <$> y)
  = Np.sum ((fun v => v ^ 2) <$> y) - 2 * a * Np.sum y + INR (length y) * a ^ 2.
Proof.
  induction y as [| v y IH]; cbn [fmap list_fmap length].
  - cbn. lra.
  - rewrite !sum_cons, IH, S_INR. ring.
Qed.

Lemma var_as_moments (y : list R) :
  (1 <= length y)%nat ->
  var y = Np.sum ((fun v => v ^ 2) <$> y) / INR (length y)
          - (Np.sum y / INR (length y)) ^ 2.
Proof.
  intros Hlen. assert (Hn : 0 < INR (length y)) by (apply lt_0_INR; lia).
  unfold var, mean at 1. rewrite length_fmap, sum_sq_shift. unfold mean.
  field. lra.
Qed.

Lemma fill_rows_lookup_lt (shp : list nat) (g : stream) (r : nat) :
  (r < row_count shp)%nat ->
  rows (fill shp g) !! r
  = Some ((fun k => g (r * row_length shp + k)%nat) <$> seq 0 (row_length shp)).
Proof.
  intros Hr. unfold fill. cbn [rows].
  rewrite list_lookup_fmap, lookup_seq_lt by exact Hr. reflexivity.
Qed.

Lemma constrain_imag_rows_lookup_Some (samples : nat) (si : ndarray R) (r : nat) (raw : list R) :
  rows si !! r = Some raw ->
  rows (constrain_imag samples si) !! r
  = Some (<[0%nat := 0]>
            (if (samples mod 2 =? 0)%nat then <[(length raw - 1)%nat := 0]> raw else raw)).
Proof.
  intros H. unfold constrain_imag, set_column, set_last_column.
  destruct (samples mod 2 =? 0)%nat; cbn [rows].
  - rewrite <- list_fmap_compose, list_lookup_fmap, H. reflexivity.
  - rewrite list_lookup_fmap, H. reflexivity.
Qed.

Lemma output_row_valid
    (exponent fmin : R) (size : size_arg) (g : stream) (batch : list nat) (samples r : nat) :
  (1 <= samples)%nat ->
  resolved size = int_shape (batch ++ [samples]) ->
  (r < foldr Nat.mul 1%nat batch)%nat ->
  output_row exponent size fmin r g
  = realization (scale_vector exponent fmin samples) samples
      (real_row samples r g) (imag_row batch samples r g).
Proof.
  intros Hn Hsize Hr. unfold output_row, powerlaw_psd_gaussian.
  rewrite (sample_spectrum_valid _ _ _ _ batch samples) by assumption.
  cbn [bind]. unfold synthesize, irfft.
  cbn [sp_scale sp_real sp_imag sp_stream sp_samples shape rows fst].
  apply nth_lookup_Some with (d := []).
  assert (Hc : (r < row_count (spectrum_shape batch samples))%nat)
    by (unfold spectrum_shape; rewrite row_count_snoc; exact Hr).
  assert (Hm : row_length (spectrum_shape batch samples) = (samples / 2 + 1)%nat)
    by (unfold spectrum_shape; apply row_length_snoc).
  rewrite !list_lookup_fmap, lookup_zip_with.
  rewrite (fill_rows_lookup_lt _ g r Hc).
  rewrite (constrain_imag_rows_lookup_Some samples _ r _ (fill_rows_lookup_lt _ _ r Hc)).
  rewrite Hm. reflexivity.
Qed.

Lemma hermitian_term_linear (n t k : nat) (x y : R) :
  hermitian_term n t k (x, y) = coef_re n t k * x + coef_im n t k * y.
Proof.
  unfold hermitian_term, coef_re, coef_im. cbn [fst snd].
  destruct (k =? 0)%nat; [ring |].
  destruct (2 * k =? n)%nat; ring.
Qed.

Lemma coef_re_sum (n k : nat) :
  (1 <= n)%nat -> (k <= n / 2)%nat ->
  Np.sum ((fun t => coef_re n t k) <$> seq 0 n) = if (k =? 0)%nat then INR n else 0.
Proof.
  intros Hn Hk. unfold coef_re.
  destruct (Nat.eqb_spec k 0) as [-> | Hk0].
  - rewrite sum_fmap_const, length_seq. lra.
  - destruct (Nat.eqb_spec (2 * k) n) as [E | E].
    + rewrite <- E. apply alternating_sum.
    + rewrite sum_fmap_scal, cos_full_sum; [lra |].
      destruct (parity_cases n Hn)
        as [(h & Hh & En & E2 & _) | (h & En & E2 & _)]; rewrite E2 in Hk; lia.
Qed.

Lemma coef_im_sum (n k : nat) :
  (1 <= n)%nat -> (k <= n / 2)%nat ->
  Np.sum ((fun t => coef_im n t k) <$> seq 0 n) = 0.
Proof.
  intros Hn Hk. unfold coef_im.
  destruct (Nat.eqb_spec k 0) as [-> | Hk0]; [apply sum_fmap_zero |].
  destruct (Nat.eqb_spec (2 * k) n) as [E | E]; [apply sum_fmap_zero |].
  rewrite sum_fmap_scal, sin_full_sum; [lra |].
  destruct (parity_cases n Hn)
    as [(h & Hh & En & E2 & _) | (h & En & E2 & _)]; rewrite E2 in Hk; lia.
Qed.

Lemma coef_square_sum (n k : nat) :
  Np.sum ((fun t => coef_re n t k ^ 2 + coef_im n t k ^ 2) <$> seq 0 n)
  = INR n * (4 * bin_factor n k ^ 2 + if (k =? 0)%nat then 1 else 0).
Proof.
  unfold coef_re, coef_im, bin_factor.
  destruct (Nat.eqb_spec k 0) as [-> | Hk0].
  - rewrite (sum_fmap_ext _ (fun _ => 1)) by (intros; lra).
    rewrite sum_fmap_const, length_seq. lra.
  - destruct (Nat.eqb_spec (2 * k) n) as [E | E].
    + rewrite (sum_fmap_ext _ (fun _ => 1))
        by (intros t _; rewrite alternating_square; lra).
      rewrite sum_fmap_const, length_seq. lra.
    + rewrite (sum_fmap_ext _ (fun _ => 4)).
      * rewrite sum_fmap_const, length_seq. lra.
      * intros t _. pose proof (sin2_cos2 (angle n k t)) as H.
        unfold Rsqr in H. nra.
Qed.

Lemma real_row_length (n r : nat) (g : stream) :
  length (real_row n r g) = (n / 2 + 1)%nat.
Proof. unfold real_row. rewrite length_fmap, length_seq. reflexivity. Qed.

Lemma imag_row_length (batch : list nat) (n r : nat) (g : stream) :
  length (imag_row batch n r g) = (n / 2 + 1)%nat.
Proof.
  unfold imag_row. rewrite length_insert.
  destruct (n mod 2 =? 0)%nat; rewrite ?length_insert, length_fmap, length_seq; reflexivity.
Qed.

Lemma real_row_nth (n r k : nat) (g : stream) :
  (k < n / 2 + 1)%nat -> nth k (real_row n r g) 0 = g (r * (n / 2 + 1) + k)%nat.
Proof.
  intros Hk. apply nth_lookup_Some. unfold real_row.
  rewrite list_lookup_fmap, lookup_seq_lt by exact Hk. reflexivity.
Qed.

Lemma imag_row_nth (batch : list nat) (n r k : nat) (g : stream) :
  (1 <= n)%nat -> (k < n / 2 + 1)%nat -> k <> 0%nat -> (2 * k)%nat <> n ->
  nth k (imag_row batch n r g) 0
  = g (r * (n / 2 + 1) + k + foldr Nat.mul 1%nat batch * (n / 2 + 1))%nat.
Proof.
  intros Hn Hk Hk0 Hkn. apply nth_lookup_Some. unfold imag_row.
  rewrite list_lookup_insert_ne by lia.
  set (raw := (fun k0 => advance (spectrum_shape batch n) g (r * (n / 2 + 1) + k0)%nat)
                <$> seq 0 (n / 2 + 1)).
  assert (Hraw : raw !! k
                 = Some (g (r * (n / 2 + 1) + k
                            + foldr Nat.mul 1%nat batch * (n / 2 + 1))%nat)).
  { unfold raw. rewrite list_lookup_fmap, lookup_seq_lt by exact Hk.
    cbn [fmap option_fmap option_map]. unfold advance, spectrum_shape.
    rewrite row_count_snoc, row_length_snoc. reflexivity. }
  assert (Hlen : length raw = (n / 2 + 1)%nat)
    by (unfold raw; rewrite length_fmap, length_seq; reflexivity).
  destruct (parity_cases n Hn)
    as [(h & Hh & En & E2 & _ & Emod) | (h & En & E2 & _ & Emod)];
    rewrite Emod; cbn [Nat.eqb]; [| exact Hraw].
  rewrite list_lookup_insert_ne; [exact Hraw |]. rewrite Hlen, E2 in *. lia.
Qed.

Lemma scaled_row_nth (s sr si : list R) (m k : nat) :
  length s = m -> length sr = m -> length si = m -> (k < m)%nat ->
  nth k (scaled_row s sr si) (0, 0) = (nth k sr 0 * nth k s 0, nth k si 0 * nth k s 0).
Proof.
  intros Hs Hsr Hsi Hk.
  destruct (lookup_lt_is_Some_2 s k ltac:(lia)) as [x Hx].
  destruct (lookup_lt_is_Some_2 sr k ltac:(lia)) as [a Ha].
  destruct (lookup_lt_is_Some_2 si k ltac:(lia)) as [b Hb].
  rewrite (nth_lookup_Some _ _ 0 _ Hx), (nth_lookup_Some _ _ 0 _ Ha),
    (nth_lookup_Some _ _ 0 _ Hb).
  apply nth_lookup_Some. unfold scaled_row.
  rewrite !lookup_zip_with, Ha, Hb, Hx. reflexivity.
Qed.

Lemma lin_app (l1 l2 : list (R * nat)) (g : stream) :
  lin (l1 ++ l2) g = lin l1 g + lin l2 g.
Proof. unfold lin. rewrite fmap_app. apply sum_app. Qed.

Lemma lin_fmap {A} (f : A -> R * nat) (l : list A) (g : stream) :
  lin (f <$> l) g = Np.sum ((fun x => (f x).1 * g (f x).2) <$> l).
Proof. unfold lin. rewrite <- list_fmap_compose. reflexivity. Qed.

Lemma realization_as_forms
    (exponent fmin : R) (batch : list nat) (n r : nat) (g : stream) :
  (1 <= n)%nat ->
  let s := scale_vector exponent fmin n in
  realization s n (real_row n r g) (imag_row batch n r g)
  = (fun t => lin (row_form s batch n r t) g / INR n / std s n) <$> seq 0 n.
Proof.
  intros Hn s. unfold realization, irfft_row.
  rewrite <- list_fmap_compose. apply list_fmap_ext. intros _ t _.
  cbn [compose]. f_equal. f_equal.
  unfold row_form. rewrite lin_app, !lin_fmap. cbn [fst snd].
  rewrite <- sum_fmap_plus. apply sum_fmap_ext. intros k Hk.
  apply in_seq in Hk.
  rewrite (scaled_row_nth s _ _ (n / 2 + 1) k
             (scale_vector_length exponent fmin n Hn)
             (real_row_length n r g) (imag_row_length batch n r g)) by lia.
  rewrite hermitian_term_linear, real_row_nth by lia.
  assert (Him : coef_im n t k * (nth k (imag_row batch n r g) 0 * nth k s 0)
                = nth k s 0 * coef_im n t k
                  * g (r * (n / 2 + 1) + k + foldr Nat.mul 1%nat batch * (n / 2 + 1))%nat).
  { destruct (Nat.eq_dec k 0%nat) as [-> | Hk0].
    { unfold coef_im. cbn [Nat.eqb]. ring. }
    destruct (Nat.eq_dec (2 * k)%nat n) as [E | E].
    { unfold coef_im. destruct (k =? 0)%nat; [ring |].
      rewrite (proj2 (Nat.eqb_eq (2 * k) n) E). ring. }
    rewrite imag_row_nth by lia. ring. }
  rewrite Him. ring.
Qed.

Lemma forms_total (s : list R) (batch : list nat) (n r : nat) (g : stream) :
  (1 <= n)%nat ->
  Np.sum ((fun t => lin (row_form s batch n r t) g) <$> seq 0 n)
  = INR n * (nth 0 s 0 * g (r * (n / 2 + 1))%nat).
Proof.
  intros Hn.
  rewrite (sum_fmap_ext _
             (fun t => Np.sum ((fun k => nth k s 0 * coef_re n t k
                                         * g (r * (n / 2 + 1) + k)%nat) <$> seq 0 (n / 2 + 1))
                       + Np.sum ((fun k => nth k s 0 * coef_im n t k
                                           * g (r * (n / 2 + 1) + k
                                                + foldr Nat.mul 1%nat batch * (n / 2 + 1))%nat)
                                   <$> seq 0 (n / 2 + 1))))
    by (intros t _; unfold row_form; rewrite lin_app, !lin_fmap; reflexivity).
  rewrite sum_fmap_plus.
  rewrite (sum_swap (fun t k => nth k s 0 * coef_re n t k * g (r * (n / 2 + 1) + k)%nat)).
  rewrite (sum_swap (fun t k => nth k s 0 * coef_im n t k
                                * g (r * (n / 2 + 1) + k
                                     + foldr Nat.mul 1%nat batch * (n / 2 + 1))%nat)).
  rewrite (sum_fmap_ext
             (fun k => Np.sum ((fun t => nth k s 0 * coef_im n t k
                                         * g (r * (n / 2 + 1) + k
                                              + foldr Nat.mul 1%nat batch * (n / 2 + 1))%nat)
                                 <$> seq 0 n))
             (fun _ => 0)).
  2:{ intros k Hk. apply in_seq in Hk.
      rewrite (sum_fmap_ext _
                 (fun t => nth k s 0
                           * g (r * (n / 2 + 1) + k
                                + foldr Nat.mul 1%nat batch * (n / 2 + 1))%nat
                           * coef_im n t k)) by (intros; ring).
      rewrite sum_fmap_scal, coef_im_sum by lia. ring. }
  rewrite sum_fmap_zero, Rplus_0_r.
  rewrite (sum_fmap_ext
             (fun k => Np.sum ((fun t => nth k s 0 * coef_re n t k
                                         * g (r * (n / 2 + 1) + k)%nat) <$> seq 0 n))
             (fun k => nth k s 0 * g (r * (n / 2 + 1) + k)%nat
                       * (if (k =? 0)%nat then INR n else 0))).
  2:{ intros k Hk. apply in_seq in Hk.
      rewrite (sum_fmap_ext _
                 (fun t => nth k s 0 * g (r * (n / 2 + 1) + k)%nat * coef_re n t k))
        by (intros; ring).
      rewrite sum_fmap_scal, coef_re_sum by lia. reflexivity. }
  rewrite sum_single.
  - cbn [Nat.eqb]. rewrite Nat.add_0_r. ring.
  - lia.
  - intros k Hk. destruct (Nat.eqb_spec k 0); [lia | ring].
Qed.

Lemma row_form_indices (s : list R) (batch : list nat) (n r t : nat) :
  (r < foldr Nat.mul 1%nat batch)%nat ->
  Forall (fun ci => (ci.2 < 2 * foldr Nat.mul 1%nat batch * (n / 2 + 1))%nat)
    (row_form s batch n r t)
  /\ NoDup ((row_form s batch n r t).*2).
Proof.
  intros Hr. unfold row_form. cbv zeta.
  set (m := (n / 2 + 1)%nat). set (c := foldr Nat.mul 1%nat batch) in *.
  clearbody m c.
  assert (Hrm : (r * m + m <= c * m)%nat).
  { replace (r * m + m)%nat with ((r + 1) * m)%nat by lia.
    apply Nat.mul_le_mono_r. lia. }
  split.
  - apply Forall_app. split; apply Forall_fmap, Forall_forall; intros k Hk;
      apply elem_of_seq in Hk; cbn; lia.
  - rewrite fmap_app, <- !list_fmap_compose. apply NoDup_app. repeat split.
    + apply NoDup_fmap_2; [| apply NoDup_seq]. intros a b H. cbn in H. lia.
    + intros x Hx Hx'.
      apply list_elem_of_fmap in Hx as (k & -> & Hk).
      apply list_elem_of_fmap in Hx' as (k' & E & Hk').
      apply elem_of_seq in Hk, Hk'. cbn in E. lia.
    + apply NoDup_fmap_2; [| apply NoDup_seq]. intros a b H. cbn in H. lia.
Qed.

Lemma sum_fmap_nonneg {A} (f : A -> R) (l : list A) :
  (forall x, 0 <= f x) -> 0 <= Np.sum (f <$> l).
Proof.
  intros H. induction l as [| x l IH]; cbn [fmap list_fmap].
  - cbn. lra.
  - rewrite sum_cons. pose proof (H x). lra.
Qed.

Lemma weights_sum_positive (s : list R) (n : nat) :
  (2 <= n)%nat -> length s = (n / 2 + 1)%nat -> Forall (fun x => 0 < x) s ->
  0 < Np.sum (weights s n).
Proof.
  intros Hn Hlen Hpos.
  rewrite weights_closed_form by (assumption || lia).
  assert (Hm : (2 <= n / 2 + 1)%nat).
  { assert (1 <= n / 2)%nat; [apply Nat.div_le_lower_bound; lia | lia]. }
  destruct (n / 2 + 1)%nat as [| [| m]] eqn:Em; [lia | lia |].
  cbn [seq fmap list_fmap]. rewrite !sum_cons.
  assert (H1 : 0 < (bin_factor n 1 * nth 1 s 0) ^ 2).
  { assert (Hs : 0 < nth 1 s 0).
    { destruct (lookup_lt_is_Some_2 s 1 ltac:(lia)) as [x Hx].
      rewrite (nth_lookup_Some _ _ 0 _ Hx).
      exact (proj1 (Forall_lookup _ s) Hpos 1%nat x Hx). }
    assert (Hb : 0 < bin_factor n 1).
    { unfold bin_factor. cbn [Nat.eqb]. destruct (2 * 1 =? n)%nat; lra. }
    apply pow_lt. apply Rmult_lt_0_compat; assumption. }
  assert (H0 : 0 <= (bin_factor n 0 * nth 0 s 0) ^ 2) by apply pow2_ge_0.
  pose proof (sum_fmap_nonneg (fun k => (bin_factor n k * nth k s 0) ^ 2) (seq 2 m)
                (fun k => pow2_ge_0 _)) as Hr.
  lra.
Qed.

Section UnitVariance.
Variables (exponent fmin : R) (batch : list nat) (n r : nat).
Variable E : (stream -> R) -> R.
Hypothesis Hn : (2 <= n)%nat.
Hypothesis Hr : (r < foldr Nat.mul 1%nat batch)%nat.
Hypothesis HE : expectation (2 * foldr Nat.mul 1%nat batch * (n / 2 + 1)) E.

Let s := scale_vector exponent fmin n.

Lemma E_form_square (t : nat) :
  E (fun g => lin (row_form s batch n r t) g ^ 2)
  = Np.sum ((fun k => nth k s 0 ^ 2 * (coef_re n t k ^ 2 + coef_im n t k ^ 2))
              <$> seq 0 (n / 2 + 1)).
Proof.
  destruct (row_form_indices s batch n r t Hr) as [Hi Hnd].
  rewrite (E_lin_sq _ E HE _ Hi Hnd).
  unfold row_form. rewrite fmap_app, sum_app, <- !list_fmap_compose.
  rewrite <- sum_fmap_plus. apply sum_fmap_ext. intros k _. cbn. ring.
Qed.

Lemma E_forms_square_total :
  Np.sum ((fun t => E (fun g => lin (row_form s batch n r t) g ^ 2)) <$> seq 0 n)
  = INR n * (4 * Np.sum (weights s n) + nth 0 s 0 ^ 2).
Proof.
  rewrite (sum_fmap_ext _ _ _ (fun t _ => E_form_square t)).
  rewrite (sum_swap (fun t k => nth k s 0 ^ 2 * (coef_re n t k ^ 2 + coef_im n t k ^ 2))).
  rewrite (sum_fmap_ext _
             (fun k => INR n * (4 * (bin_factor n k * nth k s 0) ^ 2)
                       + INR n * (nth k s 0 ^ 2 * if (k =? 0)%nat then 1 else 0))).
  2:{ intros k _. rewrite sum_fmap_scal, coef_square_sum. ring. }
  rewrite sum_fmap_plus, !sum_fmap_scal.
  rewrite weights_closed_form
    by (try apply scale_vector_length; lia).
  rewrite (sum_single (fun k => nth k s 0 ^ 2 * (if (k =? 0)%nat then 1 else 0))).
  - cbn [Nat.eqb]. ring.
  - lia.
  - intros k Hk. destruct (Nat.eqb_spec k 0); [lia | ring].
Qed.

Lemma scaled_std_square : (INR n * std s n) ^ 2 = 4 * Np.sum (weights s n).
Proof.
  assert (Hn' : 0 < INR n) by (apply lt_0_INR; lia).
  assert (HW : 0 < Np.sum (weights s n)).
  { apply weights_sum_positive; [exact Hn | | apply scale_vector_positive].
    apply scale_vector_length. lia. }
  unfold std.
  replace (INR n * (2 * sqrt (Np.sum (weights s n)) / INR n))
    with (2 * sqrt (Np.sum (weights s n))) by (field; lra).
  rewrite Rpow_mult_distr, pow2_sqrt by lra. lra.
Qed.

Lemma variance_as_forms (size : size_arg) (g : stream) :
  resolved size = int_shape (batch ++ [n]) ->
  var (output_row exponent size fmin r g)
  = / (INR n * (INR n * std s n) ^ 2)
    * Np.sum ((fun t => lin (row_form s batch n r t) g ^ 2) <$> seq 0 n)
    - (nth 0 s 0 / (INR n * std s n)) ^ 2
      * (g (r * (n / 2 + 1))%nat * g (r * (n / 2 + 1))%nat).
Proof.
  intros Hsize.
  assert (Hn' : 0 < INR n) by (apply lt_0_INR; lia).
  assert (HW : 0 < Np.sum (weights s n)).
  { apply weights_sum_positive; [exact Hn | | apply scale_vector_positive].
    apply scale_vector_length. lia. }
  assert (HD : INR n * std s n <> 0).
  { intros H. pose proof scaled_std_square as Hq. rewrite H in Hq. lra. }
  assert (Hs : std s n <> 0) by (intros H; apply HD; rewrite H; ring).
  rewrite (output_row_valid exponent fmin size g batch n r) by (assumption || lia).
  rewrite realization_as_forms by lia. fold s.
  rewrite var_as_moments by (rewrite length_fmap, length_seq; lia).
  rewrite length_fmap, length_seq, <- list_fmap_compose.
  rewrite (sum_fmap_ext _
             (fun t => / (INR n * std s n) ^ 2 * lin (row_form s batch n r t) g ^ 2))
    by (intros t _; cbn [compose]; field; lra).
  rewrite sum_fmap_scal.
  rewrite (sum_fmap_ext (fun t => lin (row_form s batch n r t) g / INR n / std s n)
             (fun t => / (INR n * std s n) * lin (row_form s batch n r t) g))
    by (intros t _; field; lra).
  rewrite sum_fmap_scal, forms_total by lia.
  field. lra.
Qed.

Lemma unit_variance_from_two (size : size_arg) :
  resolved size = int_shape (batch ++ [n]) ->
  E (fun g => var (output_row exponent size fmin r g)) = 1.
Proof.
  intros Hsize.
  assert (Hn' : 0 < INR n) by (apply lt_0_INR; lia).
  assert (HW : 0 < Np.sum (weights s n)).
  { apply weights_sum_positive; [exact Hn | | apply scale_vector_positive].
    apply scale_vector_length. lia. }
  assert (Hp : (r * (n / 2 + 1) < 2 * foldr Nat.mul 1%nat batch * (n / 2 + 1))%nat).
  { apply Nat.mul_lt_mono_pos_r; lia. }
  pose proof scaled_std_square as Hq.
  rewrite (E_ext _ E HE _ _ (fun g => variance_as_forms size g Hsize)).
  rewrite (E_minus _ E HE), !(E_scal _ E HE).
  rewrite (E_sum _ E HE (fun t g => lin (row_form s batch n r t) g ^ 2)).
  rewrite E_forms_square_total.
  rewrite (E_moment _ E HE), Nat.eqb_refl by exact Hp.
  assert (HD : INR n * std s n <> 0) by (intros H; rewrite H in Hq; lra).
  revert Hq HD HW.
  generalize (INR n * std s n) (Np.sum (weights s n)) (nth 0 s 0).
  intros D W a Hq HD HW.
  replace ((a / D) ^ 2) with (a ^ 2 / D ^ 2) by (field; exact HD).
  rewrite Hq. field. lra.
Qed.

End UnitVariance.

(** ** A functional with the moments of independent standard normals *)

Lemma indicator_sum (i a N : nat) :
  Np.sum ((fun k => if (i =? k)%nat then 1 else 0) <$> seq a N)
  = if ((a <=? i) && (i <? a + N))%nat then 1 else 0.
Proof.
  revert a. induction N as [| N IH]; intros a.
  - cbn [seq fmap list_fmap]. change (Np.sum []) with 0.
    destruct (Nat.leb_spec a i), (Nat.ltb_spec i (a + 0)); cbn; try reflexivity; lia.
  - cbn [seq fmap list_fmap]. rewrite sum_cons, IH.
    destruct (Nat.eqb_spec i a), (Nat.leb_spec a i), (Nat.ltb_spec i (a + S N)),
      (Nat.leb_spec (S a) i), (Nat.ltb_spec i (S a + N)); cbn; try lra; lia.
Qed.

Lemma unit_sum_expectation (N : nat) : expectation N (unit_sum N).
Proof.
  split.
  - intros f h H. unfold unit_sum. apply sum_fmap_ext. intros i _. apply H.
  - intros f h. unfold unit_sum. apply sum_fmap_plus.
  - intros c f. unfold unit_sum. apply sum_fmap_scal.
  - intros i j Hi Hj. unfold unit_sum, unit_stream.
    destruct (Nat.eqb_spec i j) as [-> | Hne].
    + rewrite (sum_fmap_ext _ (fun k => if (j =? k)%nat then 1 else 0))
        by (intros k _; destruct (j =? k)%nat; lra).
      rewrite indicator_sum.
      destruct (Nat.leb_spec 0 j), (Nat.ltb_spec j (0 + N)); cbn; try reflexivity; lia.
    + rewrite (sum_fmap_ext _ (fun _ => 0)); [apply sum_fmap_zero |].
      intros k _. destruct (Nat.eqb_spec i k), (Nat.eqb_spec j k); try lra; lia.
Qed.

(** C1: for every exponent, every [samples >= 8] and every [fmin], each row
    of the returned array has expected sample variance 1: for every
    expectation over the variates that is linear and gives the variates the
    second moments of independent standard normals, the expectation of
    numpy's [var] of the row is 1. *)
Theorem unit_variance
    (exponent fmin : R) (size : size_arg) (batch : list nat) (samples r : nat)
    (E : (stream -> R) -> R) :
  (8 <= samples)%nat ->
  resolved size = int_shape (batch ++ [samples]) ->
  (r < foldr Nat.mul 1%nat batch)%nat ->
  expectation (2 * foldr Nat.mul 1%nat batch * (samples / 2 + 1)) E ->
  E (fun g => var (output_row exponent size fmin r g)) = 1.
Proof.
  intros Hn Hsize Hr HE.
  apply (unit_variance_from_two exponent fmin batch samples r E); try assumption. lia.
Qed.

Lemma unit_variance_witness :
  unit_sum 10 (fun g => var (output_row 1 (Scalar (DInt 8)) 0 0 g)) = 1.
Proof.
  apply (unit_variance 1 0 (Scalar (DInt 8)) [] 8 0 (unit_sum 10)).
  - lia.
  - reflexivity.
  - cbn. lia.
  - apply (unit_sum_expectation 10).
Defined.

(** * Further properties *)

(** ** The variates that a call reads *)

(** X3: a successful call advances the generator by two arrays of draws,
    [2 * rows * (samples//2 + 1)] variates. *)
Theorem variates_consumed
    (exponent fmin : R) (size : size_arg) (g : stream) (batch : list nat) (samples : nat) :
  (1 <= samples)%nat ->
  resolved size = int_shape (batch ++ [samples]) ->
  exists (y : ndarray R) (g' : stream),
    powerlaw_psd_gaussian exponent size fmin g = Ok (y, g')
    /\ forall i,
         g' i = g (i + 2 * (foldr Nat.mul 1%nat batch * (samples / 2 + 1)))%nat.
Proof.
  intros Hn Hsize. unfold powerlaw_psd_gaussian.
  rewrite (sample_spectrum_valid _ _ _ _ batch samples) by assumption.
  cbn [bind]. eexists _, _. split; [reflexivity |].
  intros i. unfold synthesize. cbn [snd sp_stream]. unfold advance, spectrum_shape.
  rewrite row_count_snoc, row_length_snoc. f_equal. lia.
Qed.

Lemma variates_consumed_witness :
  exists (y : ndarray R) (g' : stream),
    powerlaw_psd_gaussian 1 (Iterable [DInt 3; DInt 8]) 0 (fun i => INR i) = Ok (y, g')
    /\ forall i, g' i = INR (i + 2 * (3 * 1 * (8 / 2 + 1)))%nat.
Proof.
  apply (variates_consumed 1 0 (Iterable [DInt 3; DInt 8]) (fun i => INR i) [3%nat] 8).
  - lia.
  - reflexivity.
Defined.

(** X4: row [r] of the result is a function of the variates of its own
    realisation only: its [samples//2 + 1] real draws and its
    [samples//2 + 1] imaginary draws. *)
Theorem row_reads_own_variates
    (exponent fmin : R) (size : size_arg) (g1 g2 : stream)
    (batch : list nat) (samples r : nat) :
  (1 <= samples)%nat ->
  resolved size = int_shape (batch ++ [samples]) ->
  (r < foldr Nat.mul 1%nat batch)%nat ->
  let m := (samples / 2 + 1)%nat in
  let c := foldr Nat.mul 1%nat batch in
  (forall k, (k < m)%nat ->
     g1 (r * m + k)%nat = g2 (r * m + k)%nat
     /\ g1 (c * m + r * m + k)%nat = g2 (c * m + r * m + k)%nat) ->
  output_row exponent size fmin r g1 = output_row exponent size fmin r g2.
Proof.
  intros Hn Hsize Hr m c H.
  rewrite !(output_row_valid _ _ _ _ batch samples r) by assumption.
  assert (Hre : real_row samples r g1 = real_row samples r g2).
  { unfold real_row. apply list_fmap_ext. intros i k Hk.
    apply lookup_seq in Hk as [Ek Hi]. subst k. apply H. exact Hi. }
  assert (Him : imag_row batch samples r g1 = imag_row batch samples r g2).
  { unfold imag_row.
    assert (E : (fun k => advance (spectrum_shape batch samples) g1 (r * (samples / 2 + 1) + k)%nat)
                  <$> seq 0 (samples / 2 + 1)
                = (fun k => advance (spectrum_shape batch samples) g2 (r * (samples / 2 + 1) + k)%nat)
                    <$> seq 0 (samples / 2 + 1)).
    { apply list_fmap_ext. intros i k Hk. apply lookup_seq in Hk as [Ek Hi]. subst k.
      unfold advance, spectrum_shape. rewrite row_count_snoc, row_length_snoc.
      cbn [Nat.add].
      replace (r * (samples / 2 + 1) + i + foldr Nat.mul 1%nat batch * (samples / 2 + 1))%nat
        with (c * m + r * m + i)%nat by (unfold c, m; lia).
      apply H. exact Hi. }
    rewrite E. reflexivity. }
  rewrite Hre, Him. reflexivity.
Qed.

Lemma row_reads_own_variates_witness :
  output_row 1 (Iterable [DInt 2; DInt 2]) 0 0 (fun i => INR i)
  = output_row 1 (Iterable [DInt 2; DInt 2]) 0 0
      (fun i => if (i <? 2)%nat || ((4 <=? i)%nat && (i <? 6)%nat) then INR i else 0).
Proof.
  apply (row_reads_own_variates 1 0 (Iterable [DInt 2; DInt 2]) _ _ [2%nat] 2 0).
  - lia.
  - reflexivity.
  - cbn. lia.
  - intros [| [| k]] Hk; cbn in Hk; try lia; split; reflexivity.
Defined.

(** ** The result as a linear map of the variates *)

Lemma lin_linear (l : list (R * nat)) (a b : R) (g1 g2 : stream) :
  lin l (fun i => a * g1 i + b * g2 i) = a * lin l g1 + b * lin l g2.
Proof.
  unfold lin.
  rewrite <- !sum_fmap_scal, <- sum_fmap_plus.
  apply sum_fmap_ext. intros ci _. ring.
Qed.

Lemma output_row_as_forms
    (exponent fmin : R) (size : size_arg) (g : stream) (batch : list nat) (samples r : nat) :
  (1 <= samples)%nat ->
  resolved size = int_shape (batch ++ [samples]) ->
  (r < foldr Nat.mul 1%nat batch)%nat ->
  let s := scale_vector exponent fmin samples in
  output_row exponent size fmin r g
  = (fun t => lin (row_form s batch samples r t) g / INR samples / std s samples)
      <$> seq 0 samples.
Proof.
  intros Hn Hsize Hr s.
  rewrite (output_row_valid _ _ _ _ batch samples r) by assumption.
  apply realization_as_forms. exact Hn.
Qed.

(** X5: every row of the result is linear in the variates: the row for the
    stream [a * g1 + b * g2] is [a] times the row for [g1] plus [b] times
    the row for [g2]. *)
Theorem output_linear_in_variates
    (exponent fmin : R) (size : size_arg) (g1 g2 : stream) (a b : R)
    (batch : list nat) (samples r : nat) :
  (2 <= samples)%nat ->
  resolved size = int_shape (batch ++ [samples]) ->
  (r < foldr Nat.mul 1%nat batch)%nat ->
  output_row exponent size fmin r (fun i => a * g1 i + b * g2 i)
  = zip_with (fun u v => a * u + b * v)
      (output_row exponent size fmin r g1) (output_row exponent size fmin r g2).
Proof.
  intros Hn Hsize Hr.
  rewrite !(output_row_as_forms _ _ _ _ batch samples r) by (assumption || lia).
  rewrite zip_with_fmap_l, zip_with_fmap_r, zip_with_diag.
  apply list_fmap_ext. intros _ t _. rewrite lin_linear.
  unfold Rdiv. ring.
Qed.

Lemma output_linear_in_variates_witness :
  output_row 1 (Scalar (DInt 8)) 0 0 (fun i => 2 * INR i + 3 * 1)
  = zip_with (fun u v => 2 * u + 3 * v)
      (output_row 1 (Scalar (DInt 8)) 0 0 (fun i => INR i))
      (output_row 1 (Scalar (DInt 8)) 0 0 (fun _ => 1)).
Proof.
  apply (output_linear_in_variates 1 0 (Scalar (DInt 8)) (fun i => INR i) (fun _ => 1)
           2 3 [] 8 0).
  - lia.
  - reflexivity.
  - cbn. lia.
Defined.

Lemma std_positive (exponent fmin : R) (samples : nat) :
  (2 <= samples)%nat -> 0 < std (scale_vector exponent fmin samples) samples.
Proof.
  intros Hn. unfold std.
  assert (Hn' : 0 < INR samples) by (apply lt_0_INR; lia).
  assert (HW : 0 < Np.sum (weights (scale_vector exponent fmin samples) samples)).
  { apply weights_sum_positive; [exact Hn | | apply scale_vector_positive].
    apply scale_vector_length. lia. }
  apply Rdiv_lt_0_compat; [| exact Hn'].
  apply Rmult_lt_0_compat; [lra | apply sqrt_lt_R0; exact HW].
Qed.

(** X6: the mean of a row is its zero-frequency draw times the first scale
    entry, divided by [samples] and by the standard deviation; no other
    variate moves it. *)
Theorem row_mean
    (exponent fmin : R) (size : size_arg) (g : stream) (batch : list nat) (samples r : nat) :
  (2 <= samples)%nat ->
  resolved size = int_shape (batch ++ [samples]) ->
  (r < foldr Nat.mul 1%nat batch)%nat ->
  let s := scale_vector exponent fmin samples in
  mean (output_row exponent size fmin r g)
  = nth 0 s 0 * g (r * (samples / 2 + 1))%nat / (INR samples * std s samples).
Proof.
  intros Hn Hsize Hr s.
  assert (Hn' : 0 < INR samples) by (apply lt_0_INR; lia).
  pose proof (std_positive exponent fmin samples Hn) as Hs. fold s in Hs.
  rewrite (output_row_as_forms _ _ _ _ batch samples r) by (assumption || lia).
  fold s. unfold mean. rewrite length_fmap, length_seq.
  rewrite (sum_fmap_ext _ (fun t => / (INR samples * std s samples)
                                    * lin (row_form s batch samples r t) g))
    by (intros t _; field; lra).
  rewrite sum_fmap_scal, forms_total by lia.
  field. lra.
Qed.

Lemma row_mean_witness :
  let s := scale_vector 1 0 8 in
  mean (output_row 1 (Scalar (DInt 8)) 0 0 (fun i => INR i))
  = nth 0 s 0 * INR (0 * (8 / 2 + 1)) / (INR 8 * std s 8).
Proof.
  apply (row_mean 1 0 (Scalar (DInt 8)) (fun i => INR i) [] 8 0).
  - lia.
  - reflexivity.
  - cbn. lia.
Defined.

(** X9: for a single sample the standard deviation is 0, for every exponent
    and every [fmin]: the only weight is the zeroed one of bin 0, and the
    result is divided by zero. *)
Theorem std_zero_for_single_sample
    (exponent fmin : R) (size : size_arg) (g : stream) (batch : list nat) :
  resolved size = int_shape (batch ++ [1%nat]) ->
  exists st,
    sample_spectrum exponent size fmin g = Ok st
    /\ sp_samples st = 1%nat
    /\ weights (sp_scale st) (sp_samples st) = [0]
    /\ std (sp_scale st) (sp_samples st) = 0.
Proof.
  intros Hsize. eexists. split.
  { apply (sample_spectrum_valid _ _ _ _ batch 1); [exact Hsize | lia]. }
  cbn [sp_samples sp_scale]. split; [reflexivity |].
  assert (Hw : weights (scale_vector exponent fmin 1) 1 = [0]).
  { rewrite weights_closed_form by (try apply scale_vector_length; lia).
    cbn [Nat.div Nat.divmod fst Nat.add seq fmap list_fmap].
    unfold bin_factor. cbn [Nat.eqb]. f_equal. ring. }
  split; [exact Hw |].
  unfold std. rewrite Hw. cbn [Np.sum fold_right]. rewrite Rplus_0_r, sqrt_0.
  cbn [INR]. lra.
Qed.

Lemma std_zero_for_single_sample_witness :
  exists st,
    sample_spectrum 2 (Iterable [DInt 3; DInt 1]) (1 / 4) (fun i => INR i) = Ok st
    /\ sp_samples st = 1%nat
    /\ weights (sp_scale st) (sp_samples st) = [0]
    /\ std (sp_scale st) (sp_samples st) = 0.
Proof.
  apply (std_zero_for_single_sample 2 (1 / 4) (Iterable [DInt 3; DInt 1]) (fun i => INR i)
           [3%nat]).
  reflexivity.
Defined.

(** ** The zero-frequency draw and the variance *)

Lemma var_shift (d : R) (y : list R) : var ((fun v => v + d) <$> y) = var y.
Proof.
  destruct y as [| v0 y]; [reflexivity |].
  set (l := v0 :: y).
  assert (Hlen : 0 < INR (length l)) by (apply lt_0_INR; cbn; lia).
  assert (Hm : mean ((fun v => v + d) <$> l) = mean l + d).
  { unfold mean. rewrite length_fmap, sum_fmap_plus, sum_fmap_const.
    rewrite (sum_fmap_ext (fun v : R => v) id) by reflexivity.
    rewrite list_fmap_id. field. lra. }
  unfold var. rewrite Hm. unfold mean at 1 3.
  rewrite !length_fmap, <- list_fmap_compose. f_equal.
  apply sum_fmap_ext. intros v _. cbn [compose]. ring.
Qed.

Lemma coef_re_zero (n t : nat) : coef_re n t 0 = 1.
Proof. reflexivity. Qed.

Lemma form_shift (s : list R) (batch : list nat) (n r t : nat) (g1 g2 : stream) :
  (r < foldr Nat.mul 1%nat batch)%nat ->
  (forall i, i <> (r * (n / 2 + 1))%nat -> g1 i = g2 i) ->
  lin (row_form s batch n r t) g2
  = lin (row_form s batch n r t) g1
    + nth 0 s 0 * (g2 (r * (n / 2 + 1))%nat - g1 (r * (n / 2 + 1))%nat).
Proof.
  intros Hr H. unfold row_form. cbv zeta.
  set (m := (n / 2 + 1)%nat) in *. set (c := foldr Nat.mul 1%nat batch) in *.
  assert (Hm : (1 <= m)%nat) by (unfold m; lia).
  assert (Hc : (m <= c * m)%nat).
  { replace m with (1 * m)%nat at 1 by lia. apply Nat.mul_le_mono_r. lia. }
  rewrite !lin_app, !lin_fmap. cbn [fst snd].
  rewrite (sum_fmap_ext
             (fun k => nth k s 0 * coef_im n t k * g2 (r * m + k + c * m)%nat)
             (fun k => nth k s 0 * coef_im n t k * g1 (r * m + k + c * m)%nat)).
  2:{ intros k _. rewrite (H (r * m + k + c * m)%nat) by lia. reflexivity. }
  destruct m as [| m']; [lia |].
  cbn [seq fmap list_fmap]. rewrite !sum_cons.
  rewrite (sum_fmap_ext
             (fun k => nth k s 0 * coef_re n t k * g2 (r * S m' + k)%nat)
             (fun k => nth k s 0 * coef_re n t k * g1 (r * S m' + k)%nat)).
  2:{ intros k Hk. apply in_seq in Hk. rewrite (H (r * S m' + k)%nat) by lia. reflexivity. }
  rewrite coef_re_zero, Nat.add_0_r. ring.
Qed.

(** X7: the variance of a row does not depend on its zero-frequency draw:
    two streams that differ only in that variate give rows of the same
    variance. *)
Theorem variance_ignores_dc_draw
    (exponent fmin : R) (size : size_arg) (g1 g2 : stream)
    (batch : list nat) (samples r : nat) :
  (2 <= samples)%nat ->
  resolved size = int_shape (batch ++ [samples]) ->
  (r < foldr Nat.mul 1%nat batch)%nat ->
  (forall i, i <> (r * (samples / 2 + 1))%nat -> g1 i = g2 i) ->
  var (output_row exponent size fmin r g2) = var (output_row exponent size fmin r g1).
Proof.
  intros Hn Hsize Hr H.
  rewrite !(output_row_as_forms _ _ _ _ batch samples r) by (assumption || lia).
  set (s := scale_vector exponent fmin samples).
  set (d := nth 0 s 0 * (g2 (r * (samples / 2 + 1))%nat - g1 (r * (samples / 2 + 1))%nat)
            / INR samples / std s samples).
  rewrite <- (var_shift d
                ((fun t => lin (row_form s batch samples r t) g1 / INR samples / std s samples)
                   <$> seq 0 samples)).
  rewrite <- list_fmap_compose. f_equal.
  apply list_fmap_ext. intros _ t _. cbn [compose].
  rewrite (form_shift s batch samples r t g1 g2 Hr H).
  unfold d, Rdiv. ring.
Qed.

Lemma variance_ignores_dc_draw_witness :
  var (output_row 1 (Scalar (DInt 8)) 0 0 (fun i => if (i =? 0)%nat then 5 else INR i))
  = var (output_row 1 (Scalar (DInt 8)) 0 0 (fun i => INR i)).
Proof.
  apply (variance_ignores_dc_draw 1 0 (Scalar (DInt 8)) (fun i => INR i)
           (fun i => if (i =? 0)%nat then 5 else INR i) [] 8 0).
  - lia.
  - reflexivity.
  - cbn. lia.
  - intros i Hi. cbn in Hi. destruct (Nat.eqb_spec i 0); [lia | reflexivity].
Defined.

(** ** The second moment of every sample *)

Lemma coef_square (n t k : nat) :
  coef_re n t k ^ 2 + coef_im n t k ^ 2
  = 4 * bin_factor n k ^ 2 + (if (k =? 0)%nat then 1 else 0).
Proof.
  unfold coef_re, coef_im, bin_factor.
  destruct (k =? 0)%nat; [lra |].
  destruct (2 * k =? n)%nat.
  - rewrite alternating_square. lra.
  - pose proof (sin2_cos2 (angle n k t)) as H. unfold Rsqr in H. nra.
Qed.

(** X8: the output is stationary in its second moments: every sample of a
    row has the same expected square, [1 + scale[0]**2 / (4 * sum of
    weights)], the unit variance plus the share of the zero-frequency
    draw. *)
Theorem sample_second_moment
    (exponent fmin : R) (size : size_arg) (batch : list nat) (samples r t : nat)
    (E : (stream -> R) -> R) :
  (2 <= samples)%nat ->
  resolved size = int_shape (batch ++ [samples]) ->
  (r < foldr Nat.mul 1%nat batch)%nat ->
  (t < samples)%nat ->
  expectation (2 * foldr Nat.mul 1%nat batch * (samples / 2 + 1)) E ->
  let s := scale_vector exponent fmin samples in
  E (fun g => nth t (output_row exponent size fmin r g) 0 ^ 2)
  = 1 + nth 0 s 0 ^ 2 / (4 * Np.sum (weights s samples)).
Proof.
  intros Hn Hsize Hr Ht HE s.
  assert (Hn' : 0 < INR samples) by (apply lt_0_INR; lia).
  assert (HW : 0 < Np.sum (weights s samples)).
  { apply weights_sum_positive; [exact Hn | | apply scale_vector_positive].
    apply scale_vector_length. lia. }
  pose proof (scaled_std_square exponent fmin batch samples r Hn Hr) as Hq. fold s in Hq.
  assert (HD : INR samples * std s samples <> 0) by (intros H; rewrite H in Hq; lra).
  rewrite (E_ext _ E HE _
             (fun g => / (INR samples * std s samples) ^ 2
                       * lin (row_form s batch samples r t) g ^ 2)).
  2:{ intros g.
      rewrite (output_row_as_forms _ _ _ _ batch samples r) by (assumption || lia).
      fold s.
      rewrite (nth_lookup_Some _ t 0
                 (lin (row_form s batch samples r t) g / INR samples / std s samples)).
      - field. split; [| lra]. intros H. apply HD. rewrite H. ring.
      - rewrite list_lookup_fmap, lookup_seq_lt by exact Ht. reflexivity. }
  rewrite (E_scal _ E HE).
  unfold s at 2. rewrite (E_form_square exponent fmin batch samples r E Hr HE t). fold s.
  rewrite (sum_fmap_ext _
             (fun k => 4 * (bin_factor samples k * nth k s 0) ^ 2
                       + nth k s 0 ^ 2 * (if (k =? 0)%nat then 1 else 0)))
    by (intros k _; rewrite coef_square; ring).
  rewrite sum_fmap_plus, sum_fmap_scal.
  rewrite <- weights_closed_form by (try apply scale_vector_length; lia).
  rewrite (sum_single (fun k => nth k s 0 ^ 2 * (if (k =? 0)%nat then 1 else 0))).
  - cbn [Nat.eqb]. rewrite Hq. field. lra.
  - lia.
  - intros k Hk. destruct (Nat.eqb_spec k 0); [lia | ring].
Qed.

Lemma sample_second_moment_witness :
  let s := scale_vector 1 0 8 in
  unit_sum 10 (fun g => nth 3 (output_row 1 (Scalar (DInt 8)) 0 0 g) 0 ^ 2)
  = 1 + nth 0 s 0 ^ 2 / (4 * Np.sum (weights s 8)).
Proof.
  apply (sample_second_moment 1 0 (Scalar (DInt 8)) [] 8 0 3 (unit_sum 10)).
  - lia.
  - reflexivity.
  - cbn. lia.
  - lia.
  - apply (unit_sum_expectation 10).
Defined.

(** ** Order of the bins and the cut index *)

Lemma count_below_all (fmin : R) (s : list R) :
  Forall (fun x => x < fmin) s -> count_below fmin s = length s.
Proof.
  induction 1 as [| x s Hx _ IH]; [reflexivity |].
  cbn [count_below foldr length]. fold (count_below fmin s).
  destruct (Rlt_dec x fmin); [rewrite IH; reflexivity | contradiction].
Qed.

(** X10: the bins are in ascending order, so the bins strictly below [fmin]
    are exactly the bins before the index [ix = sum(s_scale < fmin)] that the
    cutoff uses as a slice bound. *)
Theorem bins_below_cutoff_are_prefix (fmin : R) (samples k : nat) (x : R) :
  (1 <= samples)%nat ->
  bins samples !! k = Some x ->
  (x < fmin <-> (k < count_below fmin (bins samples))%nat).
Proof.
  intros Hn Hx. apply count_below_prefix; [| exact Hx].
  intros j k' a b. apply bins_monotone. exact Hn.
Qed.

Lemma bins_below_cutoff_are_prefix_witness :
  1 / INR 8 < 1 / 4 <-> (0 < count_below (1 / 4) (bins 8))%nat.
Proof.
  apply (bins_below_cutoff_are_prefix (1 / 4) 8 0 (1 / INR 8)).
  - lia.
  - apply (bins_lookup 8 0); lia.
Defined.

Lemma cutoff_lookup (fmin : R) (s : list R) (k : nat) :
  fmin <> 0 -> (count_below fmin s < length s)%nat -> (k < length s)%nat ->
  cutoff fmin s !! k = s !! Nat.max k (count_below fmin s).
Proof.
  intros Hf Hix Hk. rewrite cutoff_nonzero by exact Hf. cbv zeta.
  destruct (Nat.ltb_spec (count_below fmin s) (length s)) as [_ | H]; [| lia].
  set (ix := count_below fmin s) in *.
  destruct (lookup_lt_is_Some_2 s ix Hix) as [v Hv].
  rewrite (nth_lookup_Some _ _ 0 _ Hv).
  destruct (Nat.lt_ge_cases k ix) as [Hlt | Hge].
  - rewrite lookup_app_l by (rewrite length_replicate; exact Hlt).
    rewrite Nat.max_r by lia. rewrite Hv. apply lookup_replicate_2. exact Hlt.
  - rewrite lookup_app_r by (rewrite length_replicate; exact Hge).
    rewrite length_replicate, lookup_drop, Nat.max_l by lia. f_equal. lia.
Qed.

Lemma cutoff_length (fmin : R) (s : list R) : length (cutoff fmin s) = length s.
Proof.
  unfold cutoff. destruct (Req_dec_T fmin 0); [reflexivity |].
  pose proof (count_below_le_length fmin s).
  destruct (Nat.ltb_spec (count_below fmin s) (length s)); [| reflexivity].
  rewrite length_app, length_replicate, length_drop. lia.
Qed.

(** Every entry of the clipped list is an entry of the list. *)
Lemma cutoff_entries (fmin : R) (s : list R) (k : nat) (x : R) :
  cutoff fmin s !! k = Some x -> exists k', (k <= k')%nat /\ s !! k' = Some x.
Proof.
  intros Hx.
  assert (Hk : (k < length s)%nat).
  { rewrite <- (cutoff_length fmin s). eapply lookup_lt_Some. exact Hx. }
  unfold cutoff in Hx.
  destruct (Req_dec_T fmin 0) as [_ | Hf]; [exists k; split; [lia | exact Hx] |].
  destruct (Nat.ltb_spec (count_below fmin s) (length s)) as [Hix | _];
    [| exists k; split; [lia | exact Hx]].
  assert (E := cutoff_lookup fmin s k Hf Hix Hk).
  rewrite cutoff_nonzero in E by exact Hf. cbv zeta in E.
  destruct (Nat.ltb_spec (count_below fmin s) (length s)) as [_ | H]; [| lia].
  rewrite E in Hx. exists (Nat.max k (count_below fmin s)). split; [lia | exact Hx].
Qed.

Lemma cutoff_monotone (fmin : R) (n j k : nat) (x y : R) :
  (1 <= n)%nat -> (j <= k)%nat ->
  cutoff fmin (bins n) !! j = Some x -> cutoff fmin (bins n) !! k = Some y -> x <= y.
Proof.
  intros Hn Hjk Hx Hy.
  assert (Hk : (k < length (bins n))%nat).
  { rewrite <- (cutoff_length fmin (bins n)). eapply lookup_lt_Some. exact Hy. }
  unfold cutoff in Hx, Hy. destruct (Req_dec_T fmin 0) as [_ | Hf].
  { exact (bins_monotone n j k x y Hn Hjk Hx Hy). }
  destruct (Nat.ltb_spec (count_below fmin (bins n)) (length (bins n))) as [Hix | _].
  2:{ exact (bins_monotone n j k x y Hn Hjk Hx Hy). }
  assert (Ej := cutoff_lookup fmin (bins n) j Hf Hix ltac:(lia)).
  assert (Ek := cutoff_lookup fmin (bins n) k Hf Hix Hk).
  rewrite cutoff_nonzero in Ej, Ek by exact Hf. cbv zeta in Ej, Ek.
  destruct (Nat.ltb_spec (count_below fmin (bins n)) (length (bins n))) as [_ | H]; [| lia].
  rewrite Ej in Hx. rewrite Ek in Hy.
  eapply (bins_monotone n (Nat.max j _) (Nat.max k _)); [exact Hn | | exact Hx | exact Hy].
  lia.
Qed.

Lemma cutoff_positive (fmin : R) (n : nat) :
  (1 <= n)%nat -> Forall (fun x => 0 < x) (cutoff fmin (bins n)).
Proof.
  intros Hn. apply Forall_lookup. intros k x Hx.
  apply cutoff_entries in Hx as (k' & _ & Hx).
  exact (proj1 (Forall_lookup _ _) (bins_positive n Hn) k' x Hx).
Qed.

(** X11: for a non-negative exponent the scale vector never increases with
    the frequency, whatever [fmin] is; for a non-positive exponent it never
    decreases. *)
Theorem scale_vector_monotone
    (exponent fmin : R) (samples j k : nat) (a b : R) :
  (1 <= samples)%nat -> (j <= k)%nat ->
  scale_vector exponent fmin samples !! j = Some a ->
  scale_vector exponent fmin samples !! k = Some b ->
  (0 <= exponent -> b <= a) /\ (exponent <= 0 -> a <= b).
Proof.
  intros Hn Hjk Ha Hb. unfold scale_vector, apply_exponent in Ha, Hb.
  rewrite list_lookup_fmap in Ha, Hb.
  destruct (cutoff fmin (bins samples) !! j) as [x |] eqn:Ex; [| discriminate].
  destruct (cutoff fmin (bins samples) !! k) as [y |] eqn:Ey; [| discriminate].
  injection Ha as <-. injection Hb as <-.
  pose proof (cutoff_monotone fmin samples j k x y Hn Hjk Ex Ey) as Hxy.
  pose proof (proj1 (Forall_lookup _ _) (cutoff_positive fmin samples Hn) j x Ex) as Hx.
  split; intros He.
  - apply Rpower_antitone; [exact Hx | exact Hxy | lra].
  - replace (Rpower x (- exponent / 2)) with (/ Rpower x (exponent / 2)).
    2:{ rewrite <- Rpower_Ropp. f_equal. lra. }
    replace (Rpower y (- exponent / 2)) with (/ Rpower y (exponent / 2)).
    2:{ rewrite <- Rpower_Ropp. f_equal. lra. }
    apply Rinv_le_contravar; [unfold Rpower; apply exp_pos |].
    apply Rpower_antitone; [exact Hx | exact Hxy | lra].
Qed.

Lemma scale_vector_monotone_witness :
  (0 <= 1 -> Rpower (INR 3 / INR 8) (- 1 / 2) <= Rpower (INR 1 / INR 8) (- 1 / 2))
  /\ (1 <= 0 -> Rpower (INR 1 / INR 8) (- 1 / 2) <= Rpower (INR 3 / INR 8) (- 1 / 2)).
Proof.
  assert (H : forall k, (1 <= k <= 4)%nat ->
            scale_vector 1 0 8 !! k = Some (Rpower (INR k / INR 8) (- 1 / 2))).
  { intros k Hk. unfold scale_vector. rewrite cutoff_zero.
    apply apply_exponent_lookup. rewrite bins_lookup by (cbn; lia).
    destruct (Nat.eqb_spec k 0); [lia | reflexivity]. }
  apply (scale_vector_monotone 1 0 8 1 3).
  - lia.
  - lia.
  - apply H. lia.
  - apply H. lia.
Defined.

(** X12: when some bin reaches [fmin], the clipped bins are all at least
    [fmin]; for a non-negative exponent and a positive [fmin] no entry of
    the scale vector then exceeds [fmin**(-exponent/2)]. *)
Theorem cutoff_floor (exponent fmin : R) (samples : nat) :
  (1 <= samples)%nat ->
  (count_below fmin (bins samples) < length (bins samples))%nat ->
  Forall (fun x => fmin <= x) (cutoff fmin (bins samples))
  /\ (0 <= exponent -> 0 < fmin ->
      Forall (fun v => v <= Rpower fmin (- exponent / 2))
        (scale_vector exponent fmin samples)).
Proof.
  intros Hn Hix.
  assert (Hfloor : Forall (fun x => fmin <= x) (cutoff fmin (bins samples))).
  { apply Forall_lookup. intros k x Hx.
    assert (Hk : (k < length (bins samples))%nat).
    { rewrite <- (cutoff_length fmin (bins samples)). eapply lookup_lt_Some. exact Hx. }
    destruct (Req_dec_T fmin 0) as [-> | Hf].
    - rewrite cutoff_zero in Hx.
      pose proof (proj1 (Forall_lookup _ _) (bins_positive samples Hn) k x Hx). lra.
    - rewrite (cutoff_lookup fmin (bins samples) k Hf Hix Hk) in Hx.
      pose proof (count_below_prefix fmin (bins samples)
                    (fun j k' a b => bins_monotone samples j k' a b Hn) _ x Hx) as Hp.
      destruct (Rlt_dec x fmin) as [Hlt | Hge]; [| lra].
      apply Hp in Hlt. lia. }
  split; [exact Hfloor |].
  intros He Hf. unfold scale_vector, apply_exponent.
  apply Forall_fmap. eapply Forall_impl; [exact Hfloor |].
  intros x Hx. cbn. apply Rpower_antitone; lra.
Qed.

Lemma cutoff_floor_witness :
  Forall (fun x => 1 / 4 <= x) (cutoff (1 / 4) (bins 8))
  /\ (0 <= 1 -> 0 < 1 / 4 ->
      Forall (fun v => v <= Rpower (1 / 4) (- 1 / 2)) (scale_vector 1 (1 / 4) 8)).
Proof.
  apply (cutoff_floor 1 (1 / 4) 8); [lia |].
  rewrite bins_length by lia. change (8 / 2 + 1)%nat with 5%nat.
  assert (H : ~ (4 < count_below (1 / 4) (bins 8))%nat); [| lia].
  intros H.
  apply (count_below_prefix (1 / 4) (bins 8)
           (fun j k' a b => bins_monotone 8 j k' a b ltac:(lia)) 4%nat (INR 4 / INR 8)) in H.
  - cbn in H. lra.
  - apply (bins_lookup 8 4); cbn; lia.
Defined.

(** ** Values of [exponent] and [fmin] *)

(** X13: exponent 0 gives the flat scale vector of white noise, every entry
    1, whatever [fmin] is. *)
Theorem white_noise_scale (fmin : R) (samples : nat) :
  (1 <= samples)%nat ->
  scale_vector 0 fmin samples = replicate (samples / 2 + 1) 1.
Proof.
  intros Hn. unfold scale_vector, apply_exponent.
  rewrite <- (bins_length samples Hn), <- (cutoff_length fmin (bins samples)).
  pose proof (cutoff_positive fmin samples Hn) as Hpos.
  induction Hpos as [| x l Hx _ IH]; [reflexivity |].
  cbn [fmap list_fmap length replicate]. f_equal; [| exact IH].
  replace (- 0 / 2) with 0 by lra. apply Rpower_O. exact Hx.
Qed.

Lemma white_noise_scale_witness :
  scale_vector 0 (1 / 4) 8 = replicate (8 / 2 + 1) 1.
Proof. apply (white_noise_scale (1 / 4) 8). lia. Defined.

(** X14: the scale vector of a sum of exponents is the entrywise product of
    the scale vectors of the exponents (with the same [fmin]). *)
Theorem scale_vector_exponent_sum (e1 e2 fmin : R) (samples : nat) :
  scale_vector (e1 + e2) fmin samples
  = zip_with Rmult (scale_vector e1 fmin samples) (scale_vector e2 fmin samples).
Proof.
  unfold scale_vector, apply_exponent.
  rewrite zip_with_fmap_l, zip_with_fmap_r, zip_with_diag.
  apply list_fmap_ext. intros _ x _.
  rewrite <- Rpower_plus. f_equal. lra.
Qed.

Lemma cutoff_single (fmin x : R) : cutoff fmin [x] = [x].
Proof.
  unfold cutoff. destruct (Req_dec_T fmin 0); [reflexivity |].
  cbn [count_below foldr length]. destruct (Rlt_dec x fmin); reflexivity.
Qed.

Lemma bins_at_most_half (n : nat) :
  (2 <= n)%nat -> Forall (fun x => x <= 1 / 2) (bins n).
Proof.
  intros Hn. apply Forall_lookup. intros k x Hx.
  assert (Hk : (k < length (bins n))%nat) by (eapply lookup_lt_Some; exact Hx).
  rewrite bins_length in Hk by lia.
  rewrite bins_lookup in Hx by lia. injection Hx as <-.
  assert (Hpos : 0 < INR n) by (apply lt_0_INR; lia).
  assert (H2 : 2 <= INR n) by (change 2 with (INR 2); apply le_INR; lia).
  assert (Hk2 : 2 * INR k <= INR n).
  { change 2 with (INR 2). rewrite <- mult_INR. apply le_INR.
    assert (k <= n / 2)%nat by lia.
    pose proof (Nat.Div0.mul_div_le n 2). lia. }
  destruct (k =? 0)%nat.
  - apply Rmult_le_reg_r with (r := INR n); [exact Hpos |].
    unfold Rdiv. rewrite Rmult_assoc, Rinv_l by lra. lra.
  - apply Rmult_le_reg_r with (r := INR n); [exact Hpos |].
    unfold Rdiv. rewrite Rmult_assoc, Rinv_l by lra. lra.
Qed.

Lemma cutoff_above_half (fmin : R) (n : nat) :
  (1 <= n)%nat -> 1 / 2 < fmin -> cutoff fmin (bins n) = bins n.
Proof.
  intros Hn Hf.
  destruct (Nat.eq_dec n 1%nat) as [-> | Hne].
  - assert (E : exists x, bins 1 = [x]).
    { pose proof (bins_length 1 ltac:(lia)) as Hl.
      destruct (bins 1) as [| x [| y l]]; cbn in Hl; try lia. exists x. reflexivity. }
    destruct E as [x ->]. apply cutoff_single.
  - unfold cutoff. destruct (Req_dec_T fmin 0); [reflexivity |].
    rewrite count_below_all.
    + rewrite Nat.ltb_irrefl. reflexivity.
    + eapply Forall_impl; [apply bins_at_most_half; lia |]. cbn. intros x Hx. lra.
Qed.

(** X15: an [fmin] outside the range of the bins is accepted and changes
    nothing: a negative [fmin], and an [fmin] above the highest frequency
    1/2, give the result of [fmin = 0] from the same draws. *)
Theorem fmin_out_of_range_is_ignored
    (exponent fmin : R) (size : size_arg) (g : stream) (batch : list nat) (samples : nat) :
  (1 <= samples)%nat ->
  resolved size = int_shape (batch ++ [samples]) ->
  fmin < 0 \/ 1 / 2 < fmin ->
  scale_vector exponent fmin samples = scale_vector exponent 0 samples
  /\ powerlaw_psd_gaussian exponent size fmin g
     = powerlaw_psd_gaussian exponent size 0 g.
Proof.
  intros Hn Hsize Hf.
  assert (Hc : cutoff fmin (bins samples) = bins samples).
  { destruct Hf as [Hneg | Hhigh].
    - apply cutoff_at_most_first_bin; [exact Hn |].
      assert (0 < 1 / INR samples); [| lra].
      apply Rdiv_lt_0_compat; [lra | apply lt_0_INR; lia].
    - apply cutoff_above_half; assumption. }
  assert (Hs : scale_vector exponent fmin samples = scale_vector exponent 0 samples).
  { unfold scale_vector. rewrite Hc, cutoff_zero. reflexivity. }
  split; [exact Hs |].
  unfold powerlaw_psd_gaussian.
  rewrite !(sample_spectrum_valid _ _ _ _ batch samples) by assumption.
  rewrite Hs. reflexivity.
Qed.

Lemma fmin_out_of_range_is_ignored_witness :
  scale_vector 1 (-1) 8 = scale_vector 1 0 8
  /\ powerlaw_psd_gaussian 1 (Scalar (DInt 8)) (-1) (fun i => INR i)
     = powerlaw_psd_gaussian 1 (Scalar (DInt 8)) 0 (fun i => INR i).
Proof.
  apply (fmin_out_of_range_is_ignored 1 (-1) (Scalar (DInt 8)) (fun i => INR i) [] 8).
  - lia.
  - reflexivity.
  - left. lra.
Defined.
